(** * FortuneFlip: wheel collection store and spin engine (src/App.js)

    A shallow embedding of the state handled by the [App] component: the
    records kept in React state, the event handlers that update them, the
    startup load, the spin computation on IEEE-754 binary64 numbers and the
    wedge geometry used by [WheelCanvas]. *)

From Stdlib Require Import ZArith QArith Qround Qabs Qpower Lia Lqa.
From Stdlib Require Import List Bool String Ascii DecimalString.
From Stdlib Require Import Floats.SpecFloat.
Import ListNotations.

Open Scope string_scope.
Open Scope list_scope.

(** ** JavaScript values used by the store *)

(** Identifiers are JS strings; [null]/[undefined] is [None]. *)
Definition Id := string.

(** Truthiness of a string: only the empty string is falsy. *)
Definition truthy (s : string) : bool := negb (s =? "").

(** [a || b] on possibly-null strings. *)
Definition js_or (a b : option string) : option string :=
  match a with
  | Some s => if truthy s then Some s else b
  | None => b
  end.

(** [x === y] where [x] may be [null] and [y] is a string. *)
Definition strict_eq (x : option Id) (y : Id) : bool :=
  match x with
  | Some a => a =? y
  | None => false
  end.

(** One evaluation of the template [`${Date.now()}-${Math.random()}`]: the
    two readings, already rendered as text, are inputs of the model. *)
Record Stamp := mkStamp { now : string; random : string }.

Definition freshId (t : Stamp) : Id :=
  String.append (now t) (String.append "-" (random t)).

(** Decimal rendering of a count inside a template literal. *)
Definition decimal (n : nat) : string :=
  NilEmpty.string_of_uint (Nat.to_uint n).

(** ** Data model *)

Module Segment.
Record t := mk { id : Id; label : string }.
End Segment.

Module Wheel.
Record t := mk { id : Id; name : string; segments : list Segment.t }.
End Wheel.

(** [createSegment(label = 'Default')]; [None] is the omitted argument. *)
Definition createSegment (t : Stamp) (label : option string) : Segment.t :=
  Segment.mk (freshId t)
    (match label with Some l => l | None => "Default" end).

(** [createWheel(name)]: the wheel id is generated before the segment's. *)
Definition createWheel (tw ts : Stamp) (name : string) : Wheel.t :=
  Wheel.mk (freshId tw) name [createSegment ts None].

Definition ensureSegments (t : Stamp) (segments : list Segment.t)
  : list Segment.t :=
  if (0 <? List.length segments)%nat then segments else [createSegment t None].

(** ** Binary64 numbers

    JS numbers are IEEE-754 doubles.  A finite double is kept as the rational
    it denotes; [None] stands for a non-finite result (an infinity or NaN).
    Every arithmetic operation is the exact rational operation followed by
    rounding to nearest, ties to even, on 53 significant bits with least
    exponent -1074. *)

Module Float64.

Local Open Scope Q_scope.

Definition pow2 (e : Z) : Q := (2 # 1) ^ e.

(** Doubles are the integer multiples of [2^-1074] whose numerator is
    [m * 2^s] with [m] below [2^53]. *)
Definition scale : Z := 2 ^ 1074.

Definition significand53 (K : Z) : Prop :=
  exists m s : Z, (0 <= m < 2 ^ 53)%Z /\ (0 <= s)%Z /\ K = (m * 2 ^ s)%Z.

(** Nearest integer, ties to even. *)
Definition rne (q : Q) : Z :=
  let f := Qfloor q in
  match Qcompare (q - inject_Z f) (1 # 2) with
  | Lt => f
  | Gt => (f + 1)%Z
  | Eq => if Z.even f then f else (f + 1)%Z
  end.

(** Bits dropped from an integer part [N] to keep 53 of them. *)
Definition shift (N : Z) : Z := Z.max 0 (Z.log2 N - 52).

(** Rounding of a non-negative rational to [m * 2^s], [m <= 2^53]. *)
Definition rnd53 (X : Q) : Z :=
  let s := shift (Qfloor X) in
  (rne (X / inject_Z (2 ^ s)) * 2 ^ s)%Z.

Definition RNpos (x : Q) : Q :=
  Qred (inject_Z (rnd53 (Qred x * inject_Z scale)) / inject_Z scale).

(** Round to nearest even, unbounded above. *)
Definition RN (x : Q) : Q :=
  match Qcompare x 0 with
  | Eq => 0
  | Gt => RNpos x
  | Lt => - RNpos (- x)
  end.

Definition number := option Q.

(** A rounded magnitude of [2^1024] or more is an infinity. *)
Definition overflows (x : Q) : bool :=
  Qle_bool (inject_Z (2 ^ 1024)) (Qabs x).

Definition round (x : Q) : number :=
  let r := RN x in if overflows r then None else Some r.

Definition lift2 (op : Q -> Q -> Q) (x y : number) : number :=
  match x, y with
  | Some a, Some b => round (op a b)
  | _, _ => None
  end.

Definition fmul : number -> number -> number := lift2 Qmult.
Definition fadd : number -> number -> number := lift2 Qplus.

(** Division; a zero divisor gives an infinity or NaN. *)
Definition fdiv (x y : number) : number :=
  match x, y with
  | Some a, Some b => if Qeq_bool b 0 then None else round (a / b)
  | _, _ => None
  end.

(** Integer literals and [array.length]. *)
Definition ofZ (z : Z) : number := round (inject_Z z).
Definition ofNat (n : nat) : number := ofZ (Z.of_nat n).

(** [Math.floor] of a finite number, as an array index. *)
Definition floor (x : Q) : Z := Qfloor x.

(** The finite non-negative doubles. *)
Definition representable (x : Q) : Prop :=
  exists m e : Z,
    (0 <= m < 2 ^ 53)%Z /\ (-1074 <= e)%Z /\ x == inject_Z m * pow2 e.

(** A value [Math.random()] can return: a double in [[0, 1)]. *)
Definition unitDouble (r : Q) : Prop :=
  representable r /\ 0 <= r /\ r < 1.

(** Reading of a value of [SpecFloat], to compare both models. *)
Definition SF2Q (f : spec_float) : number :=
  match f with
  | S754_zero _ => Some 0
  | S754_finite s m e =>
      let v := Qred (inject_Z (Zpos m) * pow2 e) in
      Some (if s then - v else v)
  | _ => None
  end.

End Float64.

Arguments Float64.RN : simpl never.
Arguments Float64.round : simpl never.
Arguments Float64.ofZ : simpl never.
Arguments Float64.ofNat : simpl never.
Arguments Float64.fmul : simpl never.
Arguments Float64.fadd : simpl never.
Arguments Float64.fdiv : simpl never.

(** ** Component state

    The four [useState] cells of [App], the animated value [spinValue] and the
    animation started on it, if one is in flight. *)

(** What [Animated.timing(...).start(callback)] holds until it finishes: the
    target and the [winner] captured by the completion callback. *)
Record Animation := mkAnimation {
  toValue : Float64.number;
  winner : option Segment.t
}.

Record State := mkState {
  wheels : list Wheel.t;
  activeWheelId : option Id;
  selectedSegmentId : option Id;
  isSpinning : bool;
  spinValue : Float64.number;
  animation : option Animation
}.

(** State of the first render. *)
Definition initialState : State :=
  mkState [] None None false (Some 0%Q) None.

Definition setWheels (ws : list Wheel.t) (s : State) : State :=
  mkState ws (activeWheelId s) (selectedSegmentId s) (isSpinning s)
    (spinValue s) (animation s).

Definition setActiveWheelId (a : option Id) (s : State) : State :=
  mkState (wheels s) a (selectedSegmentId s) (isSpinning s)
    (spinValue s) (animation s).

Definition setSelectedSegmentId (x : option Id) (s : State) : State :=
  mkState (wheels s) (activeWheelId s) x (isSpinning s)
    (spinValue s) (animation s).

Definition setIsSpinning (b : bool) (s : State) : State :=
  mkState (wheels s) (activeWheelId s) (selectedSegmentId s) b
    (spinValue s) (animation s).

Definition setSpinValue (v : Float64.number) (s : State) : State :=
  mkState (wheels s) (activeWheelId s) (selectedSegmentId s) (isSpinning s)
    v (animation s).

Definition setAnimation (a : option Animation) (s : State) : State :=
  mkState (wheels s) (activeWheelId s) (selectedSegmentId s) (isSpinning s)
    (spinValue s) a.

(** [wheels.find((wheel) => wheel.id === activeWheelId) || wheels[0]] *)
Definition activeWheel (s : State) : option Wheel.t :=
  match find (fun wheel => strict_eq (activeWheelId s) (Wheel.id wheel))
             (wheels s) with
  | Some w => Some w
  | None => hd_error (wheels s)
  end.

(** Body of the effect that copies [activeWheel.id] back into
    [activeWheelId]; React runs it after a render in which [activeWheel?.id]
    differs from the previous render.  The other effect, [persist], writes
    [{ wheels, activeWheelId }] to storage and sets no state. *)
Definition syncActiveWheelId (s : State) : State :=
  match activeWheel s with
  | Some w => setActiveWheelId (Some (Wheel.id w)) s
  | None => s
  end.

(** ** Event handlers

    Each handler runs to completion on the state of the render it was created
    in, so the values it closes over and the [prev] argument of its updater
    functions are the same state. *)

(** The object an updater returns, spread over the wheel. *)
Record Patch := mkPatch {
  patch_name : option string;
  patch_segments : option (list Segment.t)
}.

(** [{ ...wheel, ...patch }] *)
Definition spread (wheel : Wheel.t) (p : Patch) : Wheel.t :=
  Wheel.mk (Wheel.id wheel)
    (match patch_name p with Some n => n | None => Wheel.name wheel end)
    (match patch_segments p with
     | Some l => l
     | None => Wheel.segments wheel
     end).

Definition updateWheel (wheelId : Id) (updater : Wheel.t -> Patch)
  (s : State) : State :=
  setWheels
    (map (fun wheel =>
            if Wheel.id wheel =? wheelId then spread wheel (updater wheel)
            else wheel)
         (wheels s))
    s.

Definition addWheel (tw ts : Stamp) (s : State) : State :=
  let wheelNumber := (List.length (wheels s) + 1)%nat in
  let newWheel :=
    createWheel tw ts (String.append "Wheel " (decimal wheelNumber)) in
  setSelectedSegmentId None
    (setActiveWheelId (Some (Wheel.id newWheel))
       (setWheels (wheels s ++ [newWheel]) s)).

Definition deleteWheel (wheelId : Id) (s : State) : State :=
  if (List.length (wheels s) =? 1)%nat then s
  else
    let s1 :=
      setWheels
        (filter (fun wheel => negb (Wheel.id wheel =? wheelId)) (wheels s))
        s in
    if strict_eq (activeWheelId s) wheelId then
      let nextWheel :=
        find (fun wheel => negb (Wheel.id wheel =? wheelId)) (wheels s) in
      setSelectedSegmentId None
        (setActiveWheelId (js_or (option_map Wheel.id nextWheel) None) s1)
    else s1.

Definition addSegment (t : Stamp) (s : State) : State :=
  match activeWheel s with
  | None => s
  | Some aw =>
      updateWheel (Wheel.id aw)
        (fun wheel =>
           mkPatch None
             (Some (Wheel.segments wheel ++
                    [createSegment t
                       (Some (String.append "Segment "
                          (decimal
                             (List.length (Wheel.segments wheel) + 1))))])))
        s
  end.

Definition updateSegmentLabel (segmentId : Id) (label : string) (s : State)
  : State :=
  match activeWheel s with
  | None => s
  | Some aw =>
      updateWheel (Wheel.id aw)
        (fun wheel =>
           mkPatch None
             (Some (map (fun segment =>
                           if Segment.id segment =? segmentId
                           then Segment.mk (Segment.id segment) label
                           else segment)
                        (Wheel.segments wheel))))
        s
  end.

(** The stamp is read only when [ensureSegments] has to make a segment. *)
Definition deleteSegment (t : Stamp) (segmentId : Id) (s : State) : State :=
  match activeWheel s with
  | None => s
  | Some aw =>
      let s1 :=
        updateWheel (Wheel.id aw)
          (fun wheel =>
             mkPatch None
               (Some (ensureSegments t
                        (filter (fun segment =>
                                   negb (Segment.id segment =? segmentId))
                                (Wheel.segments wheel)))))
          s in
      if strict_eq (selectedSegmentId s) segmentId
      then setSelectedSegmentId None s1
      else s1
  end.

Definition renameWheel (name : string) (s : State) : State :=
  match activeWheel s with
  | None => s
  | Some aw => updateWheel (Wheel.id aw) (fun _ => mkPatch (Some name) None) s
  end.

(** [onPress] of a wheel chip. *)
Definition setActiveWheel (wheelId : Id) (s : State) : State :=
  setSelectedSegmentId None (setActiveWheelId (Some wheelId) s).

(** ** Selection engine ([spinWheel]) *)

(** [Math.floor]. *)
Definition Math_floor (x : Float64.number) : Float64.number :=
  option_map (fun q => inject_Z (Float64.floor q)) x.

(** [array[i]] for a number [i]: [undefined] unless [i] is a non-negative
    integer below the length. *)
Definition at_index {A : Type} (l : list A) (i : Float64.number) : option A :=
  match i with
  | Some q =>
      if Qle_bool 0 q && Qeq_bool q (inject_Z (Qfloor q))
      then nth_error l (Z.to_nat (Qfloor q))
      else None
  | None => None
  end.

(** The constants computed by one call of [spinWheel]; [r1] and [r2] are the
    two results of [Math.random()], in call order. *)
Record Spin := mkSpin {
  winningIndex : Float64.number;
  spinWinner : option Segment.t;
  anglePerSegment : Float64.number;
  randomOffset : Float64.number;
  targetRotation : Float64.number
}.

Definition extraSpins : Z := 4.

Definition spin (segments : list Segment.t) (r1 r2 : Q) : Spin :=
  let len := Float64.ofNat (List.length segments) in
  let winningIndex := Math_floor (Float64.fmul (Some r1) len) in
  let winner := at_index segments winningIndex in
  let anglePerSegment := Float64.fdiv (Float64.ofZ 360) len in
  let randomOffset := Float64.fmul (Some r2) anglePerSegment in
  let targetRotation :=
    Float64.fadd
      (Float64.fadd
         (Float64.fmul (Float64.ofZ extraSpins) (Float64.ofZ 360))
         (Float64.fmul winningIndex anglePerSegment))
      randomOffset in
  mkSpin winningIndex winner anglePerSegment randomOffset targetRotation.

Arguments spin : simpl never.

Definition spinWheel (r1 r2 : Q) (s : State) : State :=
  match activeWheel s with
  | None => s
  | Some aw =>
      if isSpinning s then s
      else
        let sp := spin (Wheel.segments aw) r1 r2 in
        setAnimation (Some (mkAnimation (targetRotation sp) (spinWinner sp)))
          (setSpinValue (Some 0%Q)
             (setSelectedSegmentId None (setIsSpinning true s)))
  end.

(** The completion callback of the animation: the value has reached
    [toValue]; [winner.id] throws after [setIsSpinning(false)] when [winner]
    is [undefined]. *)
Definition animationEnd (s : State) : State :=
  match animation s with
  | None => s
  | Some a =>
      let s1 :=
        setIsSpinning false (setSpinValue (toValue a) (setAnimation None s)) in
      match winner a with
      | Some w => setSelectedSegmentId (Some (Segment.id w)) s1
      | None => s1
      end
  end.

(** ** User actions as a transition system *)

Inductive Action :=
| AddWheel (tw ts : Stamp)
| DeleteWheel (wheelId : Id)
| RenameWheel (name : string)
| AddSegment (t : Stamp)
| UpdateSegmentLabel (segmentId : Id) (label : string)
| DeleteSegment (t : Stamp) (segmentId : Id)
| SetActiveWheel (wheelId : Id)
| SpinWheel (r1 r2 : Q)
| AnimationEnd.

Definition step (a : Action) (s : State) : State :=
  match a with
  | AddWheel tw ts => addWheel tw ts s
  | DeleteWheel wheelId => deleteWheel wheelId s
  | RenameWheel name => renameWheel name s
  | AddSegment t => addSegment t s
  | UpdateSegmentLabel segmentId label => updateSegmentLabel segmentId label s
  | DeleteSegment t segmentId => deleteSegment t segmentId s
  | SetActiveWheel wheelId => setActiveWheel wheelId s
  | SpinWheel r1 r2 => spinWheel r1 r2 s
  | AnimationEnd => animationEnd s
  end.

(** The handlers that go through [updateWheel]. *)
Inductive WheelEdit :=
| EditName (name : string)
| EditAddSegment (t : Stamp)
| EditSegmentLabel (segmentId : Id) (label : string)
| EditDeleteSegment (t : Stamp) (segmentId : Id).

Definition edit (e : WheelEdit) (s : State) : State :=
  match e with
  | EditName name => renameWheel name s
  | EditAddSegment t => addSegment t s
  | EditSegmentLabel segmentId label => updateSegmentLabel segmentId label s
  | EditDeleteSegment t segmentId => deleteSegment t segmentId s
  end.

(** ** Startup load *)

(** The fields [load] reads from [JSON.parse(raw)]. *)
Record Snapshot := mkSnapshot {
  snap_wheels : option (list Wheel.t);
  snap_activeWheelId : option Id
}.

Inductive Parsed :=
| SyntaxError
| ParsedNull
| ParsedObject (p : Snapshot).

(** Outcome of [await AsyncStorage.getItem(STORAGE_KEY)]. *)
Inductive Stored :=
| ReadError
| Item (raw : option string).

Definition starter (tw ts : Stamp) (s : State) : State :=
  let starterWheel := createWheel tw ts "Wheel 1" in
  setActiveWheelId (Some (Wheel.id starterWheel)) (setWheels [starterWheel] s).

Section Load.

(** [JSON.parse], restricted to what [load] looks at. *)
Variable JSON_parse : string -> Parsed.

Definition load (stored : Stored) (tw ts : Stamp) (s : State) : State :=
  match stored with
  | ReadError => starter tw ts s
  | Item None => starter tw ts s
  | Item (Some raw) =>
      if truthy raw then
        match JSON_parse raw with
        | SyntaxError => starter tw ts s
        | ParsedNull => starter tw ts s
        | ParsedObject parsed =>
            setActiveWheelId
              (js_or (snap_activeWheelId parsed)
                 (js_or
                    (match snap_wheels parsed with
                     | Some ws => option_map Wheel.id (hd_error ws)
                     | None => None
                     end)
                    None))
              (setWheels
                 (match snap_wheels parsed with
                  | Some ws => ws
                  | None => []
                  end)
                 s)
        end
      else starter tw ts s
  end.

End Load.

(** ** Wedge geometry ([WheelCanvas])

    [polarToCartesian] puts angle 0 at the top of the wheel and lets angles
    grow clockwise on screen; the [rotate] transform turns the wheel
    clockwise; the pointer is drawn at the top. *)

Definition startAngle (n index : nat) : Float64.number :=
  Float64.fmul (Float64.fdiv (Float64.ofZ 360) (Float64.ofNat n))
    (Float64.ofNat index).

Definition endAngle (n index : nat) : Float64.number :=
  Float64.fadd (startAngle n index)
    (Float64.fdiv (Float64.ofZ 360) (Float64.ofNat n)).

(** Angle, in the wheel's own frame, of the point that sits under the pointer
    once the wheel has been turned clockwise by [rotation] degrees: the value
    in [[0, 360)] congruent to [- rotation]. *)
Definition pointerAngle (rotation : Q) : Q :=
  (360 * inject_Z (Qceiling (rotation / 360)) - rotation)%Q.

(** The pointer is over wedge [index], its start included. *)
Definition underPointer (n index : nat) (rotation : Q) : bool :=
  match startAngle n index, endAngle n index with
  | Some a, Some b =>
      Qle_bool a (pointerAngle rotation)
      && negb (Qle_bool b (pointerAngle rotation))
  | _, _ => false
  end.

(** The pointer is over wedge [index] and off both of its edges. *)
Definition strictlyUnderPointer (n index : nat) (rotation : Q) : bool :=
  match startAngle n index, endAngle n index with
  | Some a, Some b =>
      negb (Qle_bool (pointerAngle rotation) a)
      && negb (Qle_bool b (pointerAngle rotation))
  | _, _ => false
  end.

(** ** Validity of a collection state *)

Definition seg_ok (w : Wheel.t) : Prop :=
  (1 <= List.length (Wheel.segments w))%nat.

(** The two size bounds, on a sequence of wheels and on a state. *)
Definition bounded (ws : list Wheel.t) : Prop :=
  (1 <= List.length ws)%nat /\ Forall seg_ok ws.

Definition bounds (s : State) : Prop := bounded (wheels s).

(** A valid collection: the size bounds, and wheel ids that identify. *)
Definition valid (s : State) : Prop :=
  bounds s /\ NoDup (map Wheel.id (wheels s)).

(** ** Sample states *)

Definition pizza : Segment.t := Segment.mk "s1" "Pizza".
Definition sushi : Segment.t := Segment.mk "s2" "Sushi".
Definition tacos : Segment.t := Segment.mk "s3" "Tacos".

Definition lunch : Wheel.t := Wheel.mk "w1" "Lunch" [pizza; sushi].
Definition dinner : Wheel.t := Wheel.mk "w2" "Dinner" [tacos].

(** Two wheels, the first active, with a recorded winner. *)
Definition twoWheels : State :=
  mkState [lunch; dinner] (Some "w1") (Some "s1") false (Some 0%Q) None.

(** The first wheel in mid-spin, [pizza] being the winner drawn. *)
Definition midSpin : State :=
  mkState [lunch; dinner] (Some "w1") None true (Some 0%Q)
    (Some (mkAnimation (Some 1530%Q) (Some pizza))).

(** A single wheel with a single segment, which is the recorded winner. *)
Definition oneWheel : State :=
  mkState [dinner] (Some "w2") (Some "s3") false (Some 0%Q) None.

(** ** Sample draws, and the same arithmetic on [SpecFloat] *)

(** The largest double below 1. *)
Definition maxDraw : Q := 9007199254740991 # 9007199254740992.

Definition maxDrawSF : spec_float := S754_finite false 9007199254740991 (-53).

(** A wheel of 42 equal segments. *)
Definition manySegments : list Segment.t := repeat tacos 42.

Definition SF64 (z : Z) : spec_float := binary_normalize 53 1024 z 0 false.

(** The expression for [targetRotation], evaluated with the library's
    binary64 operations. *)
Definition targetRotationSF (n winningIndex : Z) (r2 : spec_float)
  : spec_float :=
  let anglePerSegment := SFdiv 53 1024 (SF64 360) (SF64 n) in
  let randomOffset := SFmul 53 1024 r2 anglePerSegment in
  SFadd 53 1024
    (SFadd 53 1024
       (SFmul 53 1024 (SF64 extraSpins) (SF64 360))
       (SFmul 53 1024 (SF64 winningIndex) anglePerSegment))
    randomOffset.

(** ** Derived label, persistence, palette and runs of actions *)

(** [winnerLabel]: the label shown under "Winner". *)
Definition winnerLabel (s : State) : string :=
  match activeWheel s, selectedSegmentId s with
  | Some aw, Some sel =>
      if truthy sel then
        match find (fun seg => Segment.id seg =? sel) (Wheel.segments aw) with
        | Some segment => Segment.label segment
        | None => ""
        end
      else ""
  | _, _ => ""
  end.

(** The record given to [JSON.stringify] by [persist]. *)
Definition snapshot (s : State) : Snapshot :=
  mkSnapshot (Some (wheels s)) (activeWheelId s).

Section Persist.

Variable JSON_stringify : Snapshot -> string.

(** The [persist] effect on the stored item: nothing is written while
    [wheels] is empty; [writeOk] tells whether [setItem] resolves. *)
Definition persist (writeOk : bool) (s : State) (stored : option string)
  : option string :=
  if (List.length (wheels s) =? 0)%nat then stored
  else if writeOk then Some (JSON_stringify (snapshot s)) else stored.

End Persist.

Definition COLORS : list string :=
  ["#FF6B6B"; "#FFD166"; "#06D6A0"; "#4ECDC4"; "#1A535C"; "#EF476F"].

(** [COLORS[index % COLORS.length]] *)
Definition paletteColor (index : nat) : option string :=
  nth_error COLORS (index mod List.length COLORS).

Definition isSelected (selected : option Id) (segment : Segment.t) : bool :=
  strict_eq selected (Segment.id segment).

(** Fill of wedge [index] and of its label, in [WheelCanvas]. *)
Definition fillColor (selected : option Id) (segment : Segment.t)
  (index : nat) : option string :=
  if isSelected selected segment then Some "#FFF" else paletteColor index.

Definition textFill (selected : option Id) (segment : Segment.t)
  (index : nat) : option string :=
  if isSelected selected segment then paletteColor index else Some "#222".

(** A sequence of actions, handled one after the other. *)
Fixpoint run (actions : list Action) (s : State) : State :=
  match actions with
  | [] => s
  | a :: rest => run rest (step a s)
  end.

(** Every wheel id generated along the run is new when it is generated. *)
Fixpoint freshRun (actions : list Action) (s : State) : Prop :=
  match actions with
  | [] => True
  | a :: rest =>
      match a with
      | AddWheel tw _ => ~ In (freshId tw) (map Wheel.id (wheels s))
      | _ => True
      end /\ freshRun rest (step a s)
  end.

(** * Properties of the store *)

Module StoreFacts.

Lemma wheels_updateWheel (wheelId : Id) (u : Wheel.t -> Patch) (s : State) :
  wheels (updateWheel wheelId u s) =
  map (fun wheel =>
         if Wheel.id wheel =? wheelId then spread wheel (u wheel) else wheel)
      (wheels s).
Proof. reflexivity. Qed.

Lemma bounded_map (f : Wheel.t -> Wheel.t) (ws : list Wheel.t) :
  (forall w, seg_ok w -> seg_ok (f w)) -> bounded ws -> bounded (map f ws).
Proof.
  intros Hf [Hlen Hall]. split.
  - now rewrite length_map.
  - clear Hlen. induction Hall as [|w l Hw _ IH]; simpl; constructor; auto.
Qed.

Lemma bounded_updateWheel (wheelId : Id) (u : Wheel.t -> Patch) (s : State) :
  (forall w, seg_ok w -> seg_ok (spread w (u w))) ->
  bounded (wheels s) -> bounded (wheels (updateWheel wheelId u s)).
Proof.
  intros Hu Hb. rewrite wheels_updateWheel. apply bounded_map; [|exact Hb].
  intros w Hw. destruct (Wheel.id w =? wheelId); auto.
Qed.

Lemma ensureSegments_length (t : Stamp) (l : list Segment.t) :
  (1 <= List.length (ensureSegments t l))%nat.
Proof.
  unfold ensureSegments.
  destruct (Nat.ltb_spec 0 (List.length l)); simpl; lia.
Qed.

Lemma filter_keeps_one (wheelId : Id) (ws : list Wheel.t) :
  (2 <= List.length ws)%nat -> NoDup (map Wheel.id ws) ->
  (1 <= List.length
          (filter (fun wheel => negb (Wheel.id wheel =? wheelId)%string)
                  ws))%nat.
Proof.
  destruct ws as [|w1 [|w2 rest]]; simpl; try lia.
  intros _ Hnd.
  assert (Hne : Wheel.id w1 <> Wheel.id w2).
  { inversion Hnd as [|? ? Hnin _]. intro E. apply Hnin. simpl. now left. }
  destruct (String.eqb_spec (Wheel.id w1) wheelId) as [E1|]; simpl; try lia.
  destruct (String.eqb_spec (Wheel.id w2) wheelId) as [E2|]; simpl; try lia.
  congruence.
Qed.

Lemma Forall_filter_keep {A : Type} (P : A -> Prop) (p : A -> bool)
  (l : list A) : Forall P l -> Forall P (filter p l).
Proof.
  induction 1 as [|x l Hx _ IH]; simpl; [constructor|].
  destruct (p x); auto.
Qed.

Lemma bounded_deleteWheel (wheelId : Id) (s : State) :
  valid s -> bounded (wheels (deleteWheel wheelId s)).
Proof.
  intros [[Hlen Hall] Hnd]. unfold deleteWheel.
  destruct (Nat.eqb_spec (List.length (wheels s)) 1) as [E|NE].
  - split; assumption.
  - assert (Hb : bounded
              (filter (fun wheel => negb (Wheel.id wheel =? wheelId))
                      (wheels s))).
    { split.
      - apply filter_keeps_one; [lia | exact Hnd].
      - now apply Forall_filter_keep. }
    destruct (strict_eq (activeWheelId s) wheelId); exact Hb.
Qed.

Lemma bounded_edit (e : WheelEdit) (s : State) :
  bounded (wheels s) -> bounded (wheels (edit e s)).
Proof.
  intros Hb.
  destruct e as [name | t | segmentId label | t segmentId]; simpl;
    [unfold renameWheel | unfold addSegment | unfold updateSegmentLabel
    | unfold deleteSegment];
    destruct (activeWheel s) as [aw|]; try exact Hb.
  - apply bounded_updateWheel; [|exact Hb]. intros w Hw. exact Hw.
  - apply bounded_updateWheel; [|exact Hb]. intros w _.
    unfold seg_ok; simpl. rewrite length_app; simpl. lia.
  - apply bounded_updateWheel; [|exact Hb]. intros w Hw.
    unfold seg_ok in *; simpl. now rewrite length_map.
  - assert (H : bounded (wheels (updateWheel (Wheel.id aw)
              (fun wheel => mkPatch None
                 (Some (ensureSegments t
                    (filter (fun segment =>
                               negb (Segment.id segment =? segmentId))
                            (Wheel.segments wheel))))) s))).
    { apply bounded_updateWheel; [|exact Hb]. intros w _.
      unfold seg_ok; simpl. apply ensureSegments_length. }
    destruct (strict_eq (selectedSegmentId s) segmentId); exact H.
Qed.

Lemma bounded_addWheel (tw ts : Stamp) (s : State) :
  bounded (wheels s) -> bounded (wheels (addWheel tw ts s)).
Proof.
  intros [Hlen Hall]. unfold addWheel; simpl. split.
  - rewrite length_app; simpl; lia.
  - apply Forall_app. split; [exact Hall|].
    constructor; [|constructor]. unfold seg_ok; simpl; lia.
Qed.

Lemma wheels_spinWheel (r1 r2 : Q) (s : State) :
  wheels (spinWheel r1 r2 s) = wheels s.
Proof.
  unfold spinWheel. destruct (activeWheel s); [|reflexivity].
  destruct (isSpinning s); reflexivity.
Qed.

Lemma wheels_animationEnd (s : State) : wheels (animationEnd s) = wheels s.
Proof.
  unfold animationEnd. destruct (animation s) as [a|]; [|reflexivity].
  destruct (winner a); reflexivity.
Qed.

Lemma bounded_step (a : Action) (s : State) :
  valid s -> bounded (wheels (step a s)).
Proof.
  intros Hv. pose proof Hv as [Hb _]. unfold bounds in Hb.
  destruct a as [tw ts | wheelId | name | t | segmentId label | t segmentId
                | wheelId | r1 r2 | ]; simpl.
  - now apply bounded_addWheel.
  - now apply bounded_deleteWheel.
  - exact (bounded_edit (EditName name) s Hb).
  - exact (bounded_edit (EditAddSegment t) s Hb).
  - exact (bounded_edit (EditSegmentLabel segmentId label) s Hb).
  - exact (bounded_edit (EditDeleteSegment t segmentId) s Hb).
  - exact Hb.
  - now rewrite wheels_spinWheel.
  - now rewrite wheels_animationEnd.
Qed.

End StoreFacts.

(** C1. In a valid collection state there is at least one wheel and every
    wheel has at least one segment, and after any action (adding, deleting or
    renaming a wheel, adding, relabelling or deleting a segment, switching the
    active wheel, spinning, the end of a spin) both bounds still hold. *)
Theorem bounds_invariant (s : State) :
  valid s -> bounds s /\ forall a : Action, bounds (step a s).
Proof.
  intros Hv. split.
  - exact (proj1 Hv).
  - intros a. unfold bounds. apply StoreFacts.bounded_step, Hv.
Qed.

Lemma valid_twoWheels : valid twoWheels.
Proof.
  split; [split|]; simpl.
  - lia.
  - repeat constructor; unfold seg_ok; simpl; lia.
  - repeat constructor; simpl; intuition discriminate.
Qed.

Lemma bounds_invariant_witness :
  valid twoWheels /\
  (bounds twoWheels /\ forall a : Action, bounds (step a twoWheels)).
Proof.
  split.
  - split; [split|]; simpl.
    + lia.
    + repeat constructor; unfold seg_ok; simpl; lia.
    + repeat constructor; simpl; intuition discriminate.
  - apply (bounds_invariant twoWheels).
    split; [split|]; simpl.
    + lia.
    + repeat constructor; unfold seg_ok; simpl; lia.
    + repeat constructor; simpl; intuition discriminate.
Defined.

Module ListFacts.

Lemma filter_all {A : Type} (p : A -> bool) (l : list A) :
  (forall x, In x l -> p x = true) -> filter p l = l.
Proof.
  induction l as [|x l IH]; simpl; intros H; [reflexivity|].
  rewrite (H x (or_introl eq_refl)). f_equal. apply IH. auto.
Qed.

Lemma find_hd_filter {A : Type} (p : A -> bool) (l : list A) :
  find p l = hd_error (filter p l).
Proof.
  induction l as [|x l IH]; simpl; [reflexivity|].
  destruct (p x); simpl; auto.
Qed.

Lemma find_map {A : Type} (p : A -> bool) (f : A -> A) (l : list A) :
  (forall x, p (f x) = p x) ->
  find p (map f l) = option_map f (find p l).
Proof.
  intros Hp. induction l as [|x l IH]; simpl; [reflexivity|].
  rewrite Hp. destruct (p x); simpl; auto.
Qed.

Lemma hd_error_map {A : Type} (f : A -> A) (l : list A) :
  hd_error (map f l) = option_map f (hd_error l).
Proof. destruct l; reflexivity. Qed.

End ListFacts.

Module DeleteFacts.

(** With distinct ids, filtering an id out removes one element. *)
Lemma filter_removes_one (wheelId : Id) (ws : list Wheel.t) :
  NoDup (map Wheel.id ws) -> In wheelId (map Wheel.id ws) ->
  exists l1 w l2,
    ws = l1 ++ w :: l2 /\ Wheel.id w = wheelId /\
    filter (fun wheel => negb (Wheel.id wheel =? wheelId)) ws = l1 ++ l2.
Proof.
  induction ws as [|w ws IH]; simpl; intros Hnd Hin; [contradiction|].
  inversion Hnd as [|? ? Hnin Hnd']; subst.
  destruct (String.eqb_spec (Wheel.id w) wheelId) as [E|NE]; simpl.
  - exists [], w, ws. repeat split; auto.
    apply ListFacts.filter_all. intros x Hx.
    destruct (String.eqb_spec (Wheel.id x) wheelId) as [Ex|]; auto.
    exfalso. apply Hnin. rewrite E, <- Ex. now apply in_map.
  - destruct Hin as [Hin|Hin]; [contradiction|].
    destruct (IH Hnd' Hin) as (l1 & w' & l2 & E1 & E2 & E3).
    exists (w :: l1), w', l2. simpl. rewrite E1 at 1. rewrite E3. auto.
Qed.

(** The head of the sequence is the active wheel when [activeWheelId] is
    its id or is null. *)
Lemma activeWheel_head (s : State) (w0 : Wheel.t) :
  hd_error (wheels s) = Some w0 ->
  activeWheelId s = js_or (Some (Wheel.id w0)) None ->
  activeWheel s = Some w0.
Proof.
  unfold activeWheel. destruct (wheels s) as [|w ws]; simpl; [discriminate|].
  intros [= ->] ->. simpl. destruct (truthy (Wheel.id w0)); simpl.
  - now rewrite String.eqb_refl.
  - assert (H : find (fun wheel : Wheel.t => false) ws = None)
      by (induction ws; simpl; auto).
    now rewrite H.
Qed.

Lemma strict_eq_true (a : option Id) (x : Id) :
  strict_eq a x = true <-> a = Some x.
Proof.
  destruct a as [y|]; simpl; [|split; discriminate].
  rewrite String.eqb_eq. split; congruence.
Qed.

(** The effect changes nothing once [activeWheelId] names a wheel. *)
Lemma syncActiveWheelId_fixed (s : State) (w : Wheel.t) :
  find (fun wheel => strict_eq (activeWheelId s) (Wheel.id wheel)) (wheels s)
  = Some w ->
  syncActiveWheelId s = s.
Proof.
  intros Hf. unfold syncActiveWheelId, activeWheel. rewrite Hf.
  apply find_some in Hf. destruct Hf as [_ Hid].
  apply strict_eq_true in Hid. destruct s; simpl in *. now rewrite Hid.
Qed.

End DeleteFacts.

(** C5, as the code has it.  In a state with at least two wheels with
    distinct ids, [deleteWheel] of a present id removes exactly that wheel.
    If that wheel was the active one, the first remaining wheel becomes the
    active wheel and the selected segment is cleared; otherwise both
    [activeWheelId] and [selectedSegmentId] are left as they were. *)
Theorem deleteWheel_removes_and_reselects (s : State) (wheelId : Id) :
  (2 <= List.length (wheels s))%nat ->
  NoDup (map Wheel.id (wheels s)) ->
  In wheelId (map Wheel.id (wheels s)) ->
  let s' := deleteWheel wheelId s in
  (exists l1 w l2,
      wheels s = l1 ++ w :: l2 /\ Wheel.id w = wheelId /\
      wheels s' = l1 ++ l2) /\
  (activeWheelId s = Some wheelId ->
   exists w0,
     hd_error (wheels s') = Some w0 /\
     activeWheel s' = Some w0 /\
     activeWheelId s' = js_or (Some (Wheel.id w0)) None /\
     selectedSegmentId s' = None) /\
  (activeWheelId s <> Some wheelId ->
   activeWheelId s' = activeWheelId s /\
   selectedSegmentId s' = selectedSegmentId s).
Proof.
  intros Hlen Hnd Hin s'.
  assert (Hw : wheels s' =
               filter (fun wheel => negb (Wheel.id wheel =? wheelId))
                      (wheels s)).
  { unfold s', deleteWheel.
    destruct (Nat.eqb_spec (List.length (wheels s)) 1); [lia|].
    destruct (strict_eq (activeWheelId s) wheelId); reflexivity. }
  split; [|split].
  - destruct (DeleteFacts.filter_removes_one wheelId (wheels s) Hnd Hin)
      as (l1 & w & l2 & E1 & E2 & E3).
    exists l1, w, l2. rewrite Hw. auto.
  - intros Hact.
    assert (Hone := StoreFacts.filter_keeps_one wheelId (wheels s) Hlen Hnd).
    rewrite <- Hw in Hone.
    assert (Hid : activeWheelId s' =
                  js_or (option_map Wheel.id (hd_error (wheels s'))) None /\
                  selectedSegmentId s' = None).
    { rewrite Hw. unfold s', deleteWheel.
      destruct (Nat.eqb_spec (List.length (wheels s)) 1); [lia|].
      apply DeleteFacts.strict_eq_true in Hact. rewrite Hact.
      rewrite ListFacts.find_hd_filter. split; reflexivity. }
    destruct (wheels s') as [|w0 rest] eqn:Ews; [simpl in Hone; lia|].
    exists w0. simpl in Hid.
    destruct Hid as [Hid Hsel]. repeat split; auto.
    apply DeleteFacts.activeWheel_head; [now rewrite Ews | exact Hid].
  - intros Hact. unfold s', deleteWheel.
    destruct (Nat.eqb_spec (List.length (wheels s)) 1); [lia|].
    destruct (strict_eq (activeWheelId s) wheelId) eqn:E; [|auto].
    apply DeleteFacts.strict_eq_true in E. contradiction.
Qed.

Lemma deleteWheel_removes_and_reselects_witness :
  let s' := deleteWheel "w1" twoWheels in
  (exists l1 w l2,
      wheels twoWheels = l1 ++ w :: l2 /\ Wheel.id w = "w1" /\
      wheels s' = l1 ++ l2) /\
  (activeWheelId twoWheels = Some "w1" ->
   exists w0,
     hd_error (wheels s') = Some w0 /\
     activeWheel s' = Some w0 /\
     activeWheelId s' = js_or (Some (Wheel.id w0)) None /\
     selectedSegmentId s' = None) /\
  (activeWheelId twoWheels <> Some "w1" ->
   activeWheelId s' = activeWheelId twoWheels /\
   selectedSegmentId s' = selectedSegmentId twoWheels).
Proof.
  apply (deleteWheel_removes_and_reselects twoWheels "w1").
  - simpl; lia.
  - repeat constructor; simpl; intuition discriminate.
  - simpl; auto.
Defined.

(** C5 as stated fails: deleting a wheel that is not the active one keeps
    the selected segment. *)
Lemma deleteWheel_keeps_selection :
  (2 <= List.length (wheels twoWheels))%nat /\
  In "w2" (map Wheel.id (wheels twoWheels)) /\
  wheels (deleteWheel "w2" twoWheels) = [lunch] /\
  selectedSegmentId (deleteWheel "w2" twoWheels) = Some "s1" /\
  selectedSegmentId (deleteWheel "w2" twoWheels) <> None.
Proof.
  repeat split; simpl; auto. discriminate.
Qed.

(** C7. With exactly one wheel, [deleteWheel] changes nothing: the wheels,
    the active wheel id and the selected segment id are the ones before. *)
Theorem deleteWheel_last_is_noop (s : State) (wheelId : Id) :
  List.length (wheels s) = 1%nat ->
  deleteWheel wheelId s = s /\
  wheels (deleteWheel wheelId s) = wheels s /\
  activeWheelId (deleteWheel wheelId s) = activeWheelId s /\
  selectedSegmentId (deleteWheel wheelId s) = selectedSegmentId s.
Proof.
  intros H. assert (E : deleteWheel wheelId s = s).
  { unfold deleteWheel. now rewrite H. }
  rewrite E. auto.
Qed.

Lemma deleteWheel_last_is_noop_witness :
  List.length (wheels oneWheel) = 1%nat /\
  deleteWheel "w2" oneWheel = oneWheel /\
  wheels (deleteWheel "w2" oneWheel) = wheels oneWheel /\
  activeWheelId (deleteWheel "w2" oneWheel) = activeWheelId oneWheel /\
  selectedSegmentId (deleteWheel "w2" oneWheel) = selectedSegmentId oneWheel.
Proof.
  split; [reflexivity|].
  apply (deleteWheel_last_is_noop oneWheel "w2"). reflexivity.
Defined.

Module EditFacts.

Lemma activeWheel_updateWheel (wheelId : Id) (u : Wheel.t -> Patch)
  (s : State) :
  activeWheel (updateWheel wheelId u s) =
  option_map
    (fun wheel =>
       if Wheel.id wheel =? wheelId then spread wheel (u wheel) else wheel)
    (activeWheel s).
Proof.
  unfold activeWheel. rewrite StoreFacts.wheels_updateWheel. simpl.
  rewrite ListFacts.find_map, ListFacts.hd_error_map.
  - destruct (find _ (wheels s)); reflexivity.
  - intros x. destruct (Wheel.id x =? wheelId); reflexivity.
Qed.

Lemma activeWheel_setSelectedSegmentId (x : option Id) (s : State) :
  activeWheel (setSelectedSegmentId x s) = activeWheel s.
Proof. reflexivity. Qed.

Lemma activeWheel_some (s : State) :
  (1 <= List.length (wheels s))%nat -> exists aw, activeWheel s = Some aw.
Proof.
  unfold activeWheel. destruct (find _ (wheels s)) as [w|]; [eauto|].
  destruct (wheels s) as [|w ws]; simpl; [lia | eauto].
Qed.

Lemma ensureSegments_cases (t : Stamp) (l : list Segment.t) :
  ensureSegments t l =
  match l with [] => [createSegment t None] | _ :: _ => l end.
Proof. destruct l; reflexivity. Qed.

(** Every edit maps one function over the wheels, and that function keeps
    ids and leaves alone the wheels whose id is not the active wheel's. *)
Lemma edit_is_map (e : WheelEdit) (s : State) :
  exists g : Wheel.t -> Wheel.t,
    wheels (edit e s) = map g (wheels s) /\
    (forall w, Wheel.id (g w) = Wheel.id w) /\
    (forall w aw,
        activeWheel s = Some aw -> Wheel.id w <> Wheel.id aw -> g w = w) /\
    (activeWheel s = None -> forall w, g w = w).
Proof.
  assert (Hid : exists g : Wheel.t -> Wheel.t,
             wheels s = map g (wheels s) /\
             (forall w, Wheel.id (g w) = Wheel.id w) /\
             (forall w aw, activeWheel s = Some aw ->
                           Wheel.id w <> Wheel.id aw -> g w = w) /\
             (activeWheel s = None -> forall w, g w = w)).
  { exists (fun w => w). rewrite map_id. auto. }
  assert (Hup : forall (u : Wheel.t -> Patch) (aw : Wheel.t),
             activeWheel s = Some aw ->
             exists g : Wheel.t -> Wheel.t,
               wheels (updateWheel (Wheel.id aw) u s) = map g (wheels s) /\
               (forall w, Wheel.id (g w) = Wheel.id w) /\
               (forall w aw', activeWheel s = Some aw' ->
                              Wheel.id w <> Wheel.id aw' -> g w = w) /\
               (activeWheel s = None -> forall w, g w = w)).
  { intros u aw Haw.
    exists (fun wheel =>
              if Wheel.id wheel =? Wheel.id aw
              then spread wheel (u wheel) else wheel).
    split; [reflexivity|]. split; [|split].
    - intros w. destruct (Wheel.id w =? Wheel.id aw); reflexivity.
    - intros w aw' Haw' Hne. rewrite Haw in Haw'. injection Haw' as <-.
      destruct (String.eqb_spec (Wheel.id w) (Wheel.id aw)); congruence.
    - rewrite Haw. discriminate. }
  destruct e as [name | t | segmentId label | t segmentId]; simpl;
    [unfold renameWheel | unfold addSegment | unfold updateSegmentLabel
    | unfold deleteSegment];
    destruct (activeWheel s) as [aw|] eqn:Haw; try exact Hid;
    try (apply Hup; reflexivity).
  destruct (strict_eq (selectedSegmentId s) segmentId);
    apply (Hup _ aw eq_refl).
Qed.

End EditFacts.

Module ValidFacts.

Lemma NoDup_ids_filter (p : Wheel.t -> bool) (ws : list Wheel.t) :
  NoDup (map Wheel.id ws) -> NoDup (map Wheel.id (filter p ws)).
Proof.
  induction ws as [|w ws IH]; simpl; intros H; [constructor|].
  inversion H as [|? ? Hnin Hnd]; subst.
  destruct (p w); simpl; [|auto]. constructor; [|auto].
  intros Hin. apply Hnin. apply in_map_iff in Hin.
  destruct Hin as (x & Ex & Hx). apply filter_In in Hx.
  apply in_map_iff. exists x. tauto.
Qed.

Lemma ids_edit (e : WheelEdit) (s : State) :
  map Wheel.id (wheels (edit e s)) = map Wheel.id (wheels s).
Proof.
  destruct (EditFacts.edit_is_map e s) as (g & Hw & Hid & _).
  rewrite Hw, map_map. apply map_ext. exact Hid.
Qed.

(** Validity is kept by every action, provided a new wheel gets an id that
    no existing wheel has. *)
Lemma valid_step (a : Action) (s : State) :
  valid s ->
  (forall tw ts, a = AddWheel tw ts ->
                 ~ In (freshId tw) (map Wheel.id (wheels s))) ->
  valid (step a s).
Proof.
  intros Hv Hfresh. split; [apply StoreFacts.bounded_step, Hv|].
  destruct Hv as [_ Hnd].
  destruct a as [tw ts | wheelId | name | t | segmentId label | t segmentId
                | wheelId | r1 r2 | ]; simpl.
  - unfold addWheel; simpl. rewrite map_app. simpl.
    apply NoDup_app; [exact Hnd | |].
    + constructor; [intros []|constructor].
    + intros x Hx [<-|[]]. exact (Hfresh tw ts eq_refl Hx).
  - unfold deleteWheel.
    destruct (List.length (wheels s) =? 1)%nat; [exact Hnd|].
    destruct (strict_eq (activeWheelId s) wheelId); simpl;
      now apply NoDup_ids_filter.
  - pose proof (ids_edit (EditName name) s) as E.
    simpl in E. now rewrite E.
  - pose proof (ids_edit (EditAddSegment t) s) as E.
    simpl in E. now rewrite E.
  - pose proof (ids_edit (EditSegmentLabel segmentId label) s) as E.
    simpl in E. now rewrite E.
  - pose proof (ids_edit (EditDeleteSegment t segmentId) s) as E.
    simpl in E. now rewrite E.
  - exact Hnd.
  - now rewrite StoreFacts.wheels_spinWheel.
  - now rewrite StoreFacts.wheels_animationEnd.
Qed.

Lemma valid_starter (tw ts : Stamp) (s : State) : valid (starter tw ts s).
Proof.
  split; [split|]; simpl.
  - lia.
  - repeat constructor.
  - repeat constructor. intros [].
Qed.

(** Distinct ids matter: two wheels sharing an id are both removed. *)
Lemma deleteWheel_shared_id :
  wheels (deleteWheel "w1"
            (mkState [lunch; Wheel.mk "w1" "Copy" [tacos]] (Some "w1") None
               false (Some 0%Q) None)) = [].
Proof. reflexivity. Qed.

End ValidFacts.

(** C6. In a valid state [deleteSegment] leaves the active wheel with its
    segments minus those carrying the given id, or, when none would remain,
    with exactly one freshly made default segment; the wheel keeps its id and
    name.  The selected segment id is cleared when it was the deleted id and
    is kept otherwise. *)
Theorem deleteSegment_removes_or_heals (t : Stamp) (segmentId : Id)
  (s : State) :
  valid s ->
  exists aw,
    activeWheel s = Some aw /\
    let rest :=
      filter (fun segment => negb (Segment.id segment =? segmentId))
             (Wheel.segments aw) in
    let s' := deleteSegment t segmentId s in
    activeWheel s' =
      Some (Wheel.mk (Wheel.id aw) (Wheel.name aw)
              (match rest with
               | [] => [Segment.mk (freshId t) "Default"]
               | _ :: _ => rest
               end)) /\
    (forall seg, In seg rest <->
                 In seg (Wheel.segments aw) /\ Segment.id seg <> segmentId) /\
    (selectedSegmentId s = Some segmentId -> selectedSegmentId s' = None) /\
    (selectedSegmentId s <> Some segmentId ->
     selectedSegmentId s' = selectedSegmentId s).
Proof.
  intros [[Hlen _] _].
  destruct (EditFacts.activeWheel_some s Hlen) as [aw Haw].
  exists aw. split; [exact Haw|]. intros rest s'.
  split; [|split; [|split]].
  - unfold s', deleteSegment. rewrite Haw.
    assert (E : forall x : State, activeWheel
              (if strict_eq (selectedSegmentId s) segmentId
               then setSelectedSegmentId None x else x) = activeWheel x).
    { intros x. destruct (strict_eq (selectedSegmentId s) segmentId);
        reflexivity. }
    rewrite E, EditFacts.activeWheel_updateWheel, Haw. simpl.
    rewrite String.eqb_refl. unfold spread; simpl.
    rewrite EditFacts.ensureSegments_cases. reflexivity.
  - intros seg. unfold rest. rewrite filter_In.
    destruct (String.eqb_spec (Segment.id seg) segmentId); simpl;
      intuition congruence.
  - intros Hsel. unfold s', deleteSegment. rewrite Haw.
    apply DeleteFacts.strict_eq_true in Hsel. rewrite Hsel. reflexivity.
  - intros Hsel. unfold s', deleteSegment. rewrite Haw.
    destruct (strict_eq (selectedSegmentId s) segmentId) eqn:E; [|reflexivity].
    apply DeleteFacts.strict_eq_true in E. contradiction.
Qed.

Lemma deleteSegment_removes_or_heals_witness :
  exists aw,
    activeWheel oneWheel = Some aw /\
    let rest :=
      filter (fun segment => negb (Segment.id segment =? "s3"))
             (Wheel.segments aw) in
    let s' := deleteSegment (mkStamp "1700000000000" "0.25") "s3" oneWheel in
    activeWheel s' =
      Some (Wheel.mk (Wheel.id aw) (Wheel.name aw)
              (match rest with
               | [] => [Segment.mk (freshId (mkStamp "1700000000000" "0.25"))
                          "Default"]
               | _ :: _ => rest
               end)) /\
    (forall seg, In seg rest <->
                 In seg (Wheel.segments aw) /\ Segment.id seg <> "s3") /\
    (selectedSegmentId oneWheel = Some "s3" -> selectedSegmentId s' = None) /\
    (selectedSegmentId oneWheel <> Some "s3" ->
     selectedSegmentId s' = selectedSegmentId oneWheel).
Proof.
  apply (deleteSegment_removes_or_heals
           (mkStamp "1700000000000" "0.25") "s3" oneWheel).
  split; [split|]; simpl.
  - lia.
  - repeat constructor; unfold seg_ok; simpl; lia.
  - repeat constructor; simpl; intuition.
Defined.

(** C10. An edit of the active wheel (rename, add segment, relabel segment,
    delete segment) keeps the number and the order of the wheels and the id
    at every position, and leaves every wheel whose id is not the active
    wheel's exactly as it was. *)
Theorem edit_frame (e : WheelEdit) (s : State) :
  List.length (wheels (edit e s)) = List.length (wheels s) /\
  forall (i : nat) (w : Wheel.t),
    nth_error (wheels s) i = Some w ->
    exists w',
      nth_error (wheels (edit e s)) i = Some w' /\
      Wheel.id w' = Wheel.id w /\
      (forall aw, activeWheel s = Some aw ->
                  Wheel.id w <> Wheel.id aw -> w' = w) /\
      (activeWheel s = None -> w' = w).
Proof.
  destruct (EditFacts.edit_is_map e s) as (g & Hw & Hid & Hother & Hnone).
  rewrite Hw. split; [apply length_map|].
  intros i w Hi. exists (g w). split; [|split; [|split]].
  - rewrite nth_error_map, Hi. reflexivity.
  - apply Hid.
  - intros aw Haw Hne. exact (Hother w aw Haw Hne).
  - intros Haw. exact (Hnone Haw w).
Qed.

Lemma edit_frame_witness :
  exists w',
    nth_error (wheels (edit (EditName "Brunch") twoWheels)) 1 = Some w' /\
    Wheel.id w' = Wheel.id dinner /\ w' = dinner.
Proof.
  destruct (edit_frame (EditName "Brunch") twoWheels) as [_ H].
  destruct (H 1%nat dinner eq_refl) as (w' & H1 & H2 & H3 & _).
  exists w'. split; [exact H1|]. split; [exact H2|].
  apply (H3 lunch); [reflexivity | discriminate].
Defined.

(** C8. While [isSpinning] is set, a spin request returns the state it was
    given, whatever the random draws: no state cell changes and the animation
    in flight is not replaced; this holds for any number of requests in a
    row.  The completion callback then clears the flag, drops the animation
    and records the winner captured when the spin started. *)
Theorem spin_rejected_while_spinning (s : State) :
  isSpinning s = true ->
  (forall r1 r2 : Q, spinWheel r1 r2 s = s) /\
  (forall requests : list (Q * Q),
      fold_left (fun st r => spinWheel (fst r) (snd r) st) requests s = s) /\
  (forall (a : Animation) (w : Segment.t),
      animation s = Some a -> winner a = Some w ->
      isSpinning (animationEnd s) = false /\
      animation (animationEnd s) = None /\
      selectedSegmentId (animationEnd s) = Some (Segment.id w)).
Proof.
  intros Hspin.
  assert (H1 : forall r1 r2 : Q, spinWheel r1 r2 s = s).
  { intros r1 r2. unfold spinWheel. destruct (activeWheel s); [|reflexivity].
    now rewrite Hspin. }
  split; [exact H1|]. split.
  - intros requests. induction requests as [|r rs IH]; simpl; [reflexivity|].
    now rewrite H1.
  - intros a w Ha Hw. unfold animationEnd. rewrite Ha, Hw. simpl. auto.
Qed.

(** Starting a spin from rest sets the flag and registers the animation. *)
Lemma spinWheel_starts (r1 r2 : Q) (s : State) (aw : Wheel.t) :
  activeWheel s = Some aw -> isSpinning s = false ->
  let sp := spin (Wheel.segments aw) r1 r2 in
  isSpinning (spinWheel r1 r2 s) = true /\
  selectedSegmentId (spinWheel r1 r2 s) = None /\
  animation (spinWheel r1 r2 s) =
    Some (mkAnimation (targetRotation sp) (spinWinner sp)).
Proof.
  intros Haw Hidle. unfold spinWheel. rewrite Haw, Hidle. simpl. auto.
Qed.

Lemma spin_rejected_while_spinning_witness :
  isSpinning midSpin = true /\
  (forall r1 r2 : Q, spinWheel r1 r2 midSpin = midSpin) /\
  (forall requests : list (Q * Q),
      fold_left (fun st r => spinWheel (fst r) (snd r) st) requests midSpin
      = midSpin) /\
  (forall (a : Animation) (w : Segment.t),
      animation midSpin = Some a -> winner a = Some w ->
      isSpinning (animationEnd midSpin) = false /\
      animation (animationEnd midSpin) = None /\
      selectedSegmentId (animationEnd midSpin) = Some (Segment.id w)).
Proof.
  split; [reflexivity|].
  apply (spin_rejected_while_spinning midSpin). reflexivity.
Defined.

(** C9. When the stored snapshot is absent, or is present and fails to
    parse, the load yields exactly one wheel, named "Wheel 1", holding exactly
    one segment labelled "Default", and that wheel is the active one. *)
Theorem load_falls_back_to_starter (JSON_parse : string -> Parsed)
  (stored : Stored) (tw ts : Stamp) :
  stored = Item None \/
  (exists raw, stored = Item (Some raw) /\ JSON_parse raw = SyntaxError) ->
  let s := load JSON_parse stored tw ts initialState in
  let starterWheel :=
    Wheel.mk (freshId tw) "Wheel 1" [Segment.mk (freshId ts) "Default"] in
  wheels s = [starterWheel] /\
  activeWheelId s = Some (Wheel.id starterWheel) /\
  activeWheel s = Some starterWheel /\
  selectedSegmentId s = None.
Proof.
  intros H s starterWheel.
  assert (E : s = starter tw ts initialState).
  { unfold s. destruct H as [-> | (raw & -> & Hp)]; simpl; [reflexivity|].
    rewrite Hp. destruct (truthy raw); reflexivity. }
  rewrite E. unfold starter, activeWheel; simpl.
  rewrite String.eqb_refl. auto.
Qed.

Lemma load_falls_back_to_starter_witness :
  let parse := fun raw : string =>
    if raw =? "{}" then ParsedObject (mkSnapshot None None) else SyntaxError in
  let tw := mkStamp "1700000000000" "0.5" in
  let ts := mkStamp "1700000000001" "0.75" in
  let s := load parse (Item (Some "{wheels")) tw ts initialState in
  let starterWheel :=
    Wheel.mk (freshId tw) "Wheel 1" [Segment.mk (freshId ts) "Default"] in
  wheels s = [starterWheel] /\
  activeWheelId s = Some (Wheel.id starterWheel) /\
  activeWheel s = Some starterWheel /\
  selectedSegmentId s = None.
Proof.
  apply (load_falls_back_to_starter
           (fun raw : string =>
              if raw =? "{}" then ParsedObject (mkSnapshot None None)
              else SyntaxError)
           (Item (Some "{wheels"))).
  right. exists "{wheels". split; reflexivity.
Defined.

(** The other ways into the fallback: a failed read, an empty string, and a
    snapshot that parses to [null]. *)
Lemma load_other_fallbacks (JSON_parse : string -> Parsed) (tw ts : Stamp)
  (s : State) :
  load JSON_parse ReadError tw ts s = starter tw ts s /\
  load JSON_parse (Item (Some "")) tw ts s = starter tw ts s /\
  (forall raw, JSON_parse raw = ParsedNull ->
               load JSON_parse (Item (Some raw)) tw ts s = starter tw ts s).
Proof.
  repeat split. intros raw H. simpl. rewrite H.
  destruct (truthy raw); reflexivity.
Qed.

(** * Properties of binary64 rounding *)

Module Float64Facts.
Import Float64.
Local Open Scope Q_scope.

Lemma pow2_pos (e : Z) : 0 < pow2 e.
Proof. apply Qpower_0_lt. reflexivity. Qed.

Lemma pow2_add (a b : Z) : pow2 (a + b) == pow2 a * pow2 b.
Proof. apply Qpower_plus. discriminate. Qed.

Lemma pow2_Z (e : Z) : (0 <= e)%Z -> pow2 e == inject_Z (2 ^ e).
Proof. intros H. unfold pow2. now rewrite Zpower_Qpower. Qed.

Lemma pow2_le (a b : Z) : (a <= b)%Z -> pow2 a <= pow2 b.
Proof. intros H. apply Qpower_le_compat_l; [exact H | discriminate]. Qed.

Lemma pow2_lt (a b : Z) : (a < b)%Z -> pow2 a < pow2 b.
Proof. intros H. apply Qpower_lt_compat_l; [exact H | reflexivity]. Qed.

Lemma pow2_succ (e : Z) : pow2 (e + 1) == 2 * pow2 e.
Proof. rewrite pow2_add. change (pow2 1) with (2 # 1). ring. Qed.

Lemma pow2_opp (e : Z) : pow2 (- e) == / pow2 e.
Proof. apply Qpower_opp. Qed.

Lemma scale_pow2 : inject_Z scale == pow2 1074.
Proof. symmetry. apply pow2_Z. lia. Qed.

Lemma scale_pos : 0 < inject_Z scale.
Proof. rewrite scale_pow2. apply pow2_pos. Qed.

(** Nearest-integer rounding. *)

Lemma rne_cases (q : Q) :
  (rne q = Qfloor q /\ q - inject_Z (Qfloor q) <= 1 # 2) \/
  (rne q = (Qfloor q + 1)%Z /\ 1 # 2 <= q - inject_Z (Qfloor q)).
Proof.
  unfold rne.
  destruct (Qcompare_spec (q - inject_Z (Qfloor q)) (1 # 2)) as [E|L|G].
  - destruct (Z.even (Qfloor q)); [left | right]; split; auto; rewrite E;
      apply Qle_refl.
  - left. split; auto. now apply Qlt_le_weak.
  - right. split; auto. now apply Qlt_le_weak.
Qed.

Lemma rne_nearest (q : Q) (k : Z) :
  Qabs (inject_Z (rne q) - q) <= Qabs (inject_Z k - q).
Proof.
  pose proof (Qfloor_le q) as Hlo. pose proof (Qlt_floor q) as Hhi.
  rewrite inject_Z_plus in Hhi. change (inject_Z 1) with 1 in Hhi.
  assert (Hk : (k <= Qfloor q)%Z \/ (Qfloor q + 1 <= k)%Z) by lia.
  assert (Hk' : inject_Z k <= inject_Z (Qfloor q) \/
                inject_Z (Qfloor q) + 1 <= inject_Z k).
  { destruct Hk as [Hk|Hk]; [left | right].
    - now rewrite <- Zle_Qle.
    - rewrite <- (inject_Z_plus _ 1). now rewrite <- Zle_Qle. }
  destruct (rne_cases q) as [[-> H]|[-> H]];
    [|rewrite inject_Z_plus; change (inject_Z 1) with 1];
    apply Qabs_case; intros H1; apply Qabs_case; intros H2;
    destruct Hk' as [Hk'|Hk']; lra.
Qed.

Lemma rne_nonneg (q : Q) : 0 <= q -> (0 <= rne q)%Z.
Proof.
  intros H. assert (0 <= Qfloor q)%Z.
  { change 0%Z with (Qfloor 0). now apply Qfloor_resp_le. }
  destruct (rne_cases q) as [[-> _]|[-> _]]; lia.
Qed.

Lemma rne_le (q : Q) (M : Z) : q <= inject_Z M -> (rne q <= M)%Z.
Proof.
  intros H. pose proof (Qfloor_le q) as Hlo.
  destruct (rne_cases q) as [[-> _]|[-> Hh]].
  - rewrite Zle_Qle. lra.
  - assert (Hlt : inject_Z (Qfloor q) < inject_Z M) by lra.
    rewrite <- Zlt_Qlt in Hlt. lia.
Qed.

Lemma rne_Z (k : Z) : rne (inject_Z k) = k.
Proof.
  pose proof (rne_nearest (inject_Z k) k) as H.
  assert (E : inject_Z (rne (inject_Z k)) == inject_Z k).
  { revert H. apply Qabs_case; intros H1; apply Qabs_case; intros H2 H; lra. }
  apply inject_Z_injective. exact E.
Qed.


(** Rounding to 53 significant bits, on scaled values. *)

Lemma shift_nonneg (N : Z) : (0 <= shift N)%Z.
Proof. unfold shift. lia. Qed.

Lemma floor_nonneg (X : Q) : 0 <= X -> (0 <= Qfloor X)%Z.
Proof. intros H. change 0%Z with (Qfloor 0). now apply Qfloor_resp_le. Qed.

Lemma below_top (X : Q) :
  0 <= X -> X < inject_Z (2 ^ (53 + shift (Qfloor X))).
Proof.
  intros H. pose proof (floor_nonneg X H) as HN.
  pose proof (Qlt_floor X) as Hhi.
  assert (Hle : (Qfloor X + 1 <= 2 ^ (53 + shift (Qfloor X)))%Z).
  { destruct (Z.eq_dec (Qfloor X) 0) as [E|NE].
    - rewrite E. unfold shift. simpl Z.log2.
      replace (53 + Z.max 0 (0 - 52))%Z with 53%Z by lia. lia.
    - assert (Hpos : (0 < Qfloor X)%Z) by lia.
      destruct (Z.log2_spec _ Hpos) as [_ Hup].
      assert ((2 ^ Z.succ (Z.log2 (Qfloor X))
               <= 2 ^ (53 + shift (Qfloor X)))%Z).
      { apply Z.pow_le_mono_r; [lia|]. unfold shift. lia. }
      lia. }
  rewrite Zle_Qle in Hle. lra.
Qed.

Lemma above_bottom (X : Q) :
  0 <= X -> (0 < shift (Qfloor X))%Z ->
  inject_Z (2 ^ (52 + shift (Qfloor X))) <= X.
Proof.
  intros H Hs. pose proof (Qfloor_le X) as Hlo.
  assert (Hlog : (52 < Z.log2 (Qfloor X))%Z) by (unfold shift in Hs; lia).
  assert (Hpos : (0 < Qfloor X)%Z).
  { destruct (Z.le_gt_cases (Qfloor X) 0) as [Hle|]; [|assumption].
    rewrite (Z.log2_nonpos _ Hle) in Hlog. lia. }
  destruct (Z.log2_spec _ Hpos) as [Hdn _].
  replace (52 + shift (Qfloor X))%Z with (Z.log2 (Qfloor X))
    by (unfold shift; lia).
  rewrite Zle_Qle in Hdn. lra.
Qed.

Lemma pow_pos_Q (s : Z) : (0 <= s)%Z -> 0 < inject_Z (2 ^ s).
Proof.
  intros H. change 0 with (inject_Z 0). rewrite <- Zlt_Qlt.
  apply Z.pow_pos_nonneg; lia.
Qed.

Lemma pow_split_Q (a b : Z) :
  (0 <= a)%Z -> (0 <= b)%Z ->
  inject_Z (2 ^ (a + b)) == inject_Z (2 ^ a) * inject_Z (2 ^ b).
Proof. intros Ha Hb. rewrite Z.pow_add_r by lia. now rewrite inject_Z_mult. Qed.

Lemma rnd53_mantissa (X : Q) :
  0 <= X ->
  (0 <= rne (X / inject_Z (2 ^ shift (Qfloor X))) <= 2 ^ 53)%Z.
Proof.
  intros H. pose proof (shift_nonneg (Qfloor X)) as Hs.
  pose proof (pow_pos_Q _ Hs) as HP.
  pose proof (below_top X H) as Hup.
  rewrite (pow_split_Q 53 _) in Hup by lia.
  set (P := inject_Z (2 ^ shift (Qfloor X))) in *.
  assert (Hq : X / P * P == X) by (field; lra).
  split.
  - apply rne_nonneg. apply Qle_shift_div_l; lra.
  - apply rne_le. apply Qle_shift_div_r; [exact HP|]. lra.
Qed.

Lemma rnd53_significand (X : Q) : 0 <= X -> significand53 (rnd53 X).
Proof.
  intros H. pose proof (rnd53_mantissa X H) as [Hlo Hhi].
  pose proof (shift_nonneg (Qfloor X)) as Hs. unfold rnd53.
  set (m := rne (X / inject_Z (2 ^ shift (Qfloor X)))) in *.
  destruct (Z.eq_dec m (2 ^ 53)) as [E|NE].
  - exists (2 ^ 52)%Z, (shift (Qfloor X) + 1)%Z. repeat split; try lia.
    rewrite E, Z.pow_add_r by lia. lia.
  - exists m, (shift (Qfloor X)). repeat split; lia.
Qed.

Lemma nearest_multiple (X : Q) (s k : Z) :
  (0 <= s)%Z ->
  Qabs (inject_Z (rne (X / inject_Z (2 ^ s)) * 2 ^ s) - X)
  <= Qabs (inject_Z (k * 2 ^ s) - X).
Proof.
  intros Hs. pose proof (pow_pos_Q _ Hs) as HP.
  rewrite !inject_Z_mult. set (P := inject_Z (2 ^ s)) in *.
  set (q := X / P). assert (Hq : X == q * P) by (unfold q; field; lra).
  assert (E : forall z : Q, Qabs (z * P - X) == Qabs (z - q) * P).
  { intros z. rewrite Hq at 1.
    setoid_replace (z * P - q * P) with ((z - q) * P) by ring.
    rewrite Qabs_Qmult. rewrite (Qabs_pos P) by lra. reflexivity. }
  rewrite !E. apply Qmult_le_compat_r; [|lra]. apply rne_nearest.
Qed.

Lemma rnd53_nearest (X : Q) (K : Z) :
  0 <= X -> significand53 K ->
  Qabs (inject_Z (rnd53 X) - X) <= Qabs (inject_Z K - X).
Proof.
  intros H (m & s' & Hm & Hs' & ->).
  pose proof (shift_nonneg (Qfloor X)) as Hs. unfold rnd53.
  set (s := shift (Qfloor X)) in *.
  destruct (Z.le_gt_cases s s') as [Hle|Hgt].
  - replace (m * 2 ^ s')%Z with ((m * 2 ^ (s' - s)) * 2 ^ s)%Z.
    + now apply nearest_multiple.
    + rewrite <- Z.mul_assoc, <- Z.pow_add_r by lia. do 2 f_equal. lia.
  - pose proof (above_bottom X H) as Hbot. fold s in Hbot.
    specialize (Hbot ltac:(lia)).
    apply Qle_trans with (Qabs (inject_Z (2 ^ 52 * 2 ^ s) - X)).
    + now apply nearest_multiple.
    + assert (HK : (m * 2 ^ s' <= 2 ^ 52 * 2 ^ s)%Z).
      { replace s with ((s - s' - 1) + 1 + s')%Z by lia.
        rewrite !Z.pow_add_r by lia.
        assert (0 < 2 ^ s')%Z by (apply Z.pow_pos_nonneg; lia).
        assert (1 <= 2 ^ (s - s' - 1))%Z
          by (apply (Z.pow_le_mono_r 2 0); lia).
        nia. }
      rewrite Zle_Qle in HK. rewrite <- Z.pow_add_r in * by lia.
      apply Qabs_case; intros H1; apply Qabs_case; intros H2; lra.
Qed.


(** Doubles as scaled integers. *)

Lemma pow2_scaled (e : Z) :
  (-1074 <= e)%Z -> pow2 e == inject_Z (2 ^ (e + 1074)) / inject_Z scale.
Proof.
  intros H. pose proof scale_pos as HS.
  rewrite <- pow2_Z by lia. rewrite pow2_add, <- scale_pow2. field. lra.
Qed.

Lemma representable_scaled (x : Q) :
  representable x <->
  exists K, significand53 K /\ x == inject_Z K / inject_Z scale.
Proof.
  pose proof scale_pos as HS. split.
  - intros (m & e & Hm & He & Hx).
    exists (m * 2 ^ (e + 1074))%Z. split.
    + exists m, (e + 1074)%Z. repeat split; lia.
    + rewrite Hx, (pow2_scaled e He), inject_Z_mult. field. lra.
  - intros (K & (m & s & Hm & Hs & ->) & Hx).
    exists m, (s - 1074)%Z. repeat split; try lia.
    rewrite Hx, (pow2_scaled (s - 1074)) by lia.
    replace (s - 1074 + 1074)%Z with s by lia.
    rewrite inject_Z_mult. field. lra.
Qed.

Lemma representable_nonneg (x : Q) : representable x -> 0 <= x.
Proof.
  intros (m & e & Hm & _ & Hx). rewrite Hx.
  apply Qmult_le_0_compat.
  - change 0 with (inject_Z 0). rewrite <- Zle_Qle. lia.
  - apply Qlt_le_weak, pow2_pos.
Qed.

Lemma RN_zero (x : Q) : x == 0 -> RN x = 0.
Proof. intros H. unfold RN. apply Qeq_alt in H. now rewrite H. Qed.

Lemma RN_pos (x : Q) :
  0 < x ->
  RN x == inject_Z (rnd53 (Qred x * inject_Z scale)) / inject_Z scale.
Proof.
  intros H. unfold RN. apply Qgt_alt in H. rewrite H.
  unfold RNpos. apply Qred_correct.
Qed.

Lemma RN_compat (x y : Q) : x == y -> RN x = RN y.
Proof.
  intros H. unfold RN, RNpos.
  assert (E0 : (x ?= 0) = (y ?= 0)) by now rewrite H.
  rewrite E0, (Qred_complete x y H).
  assert (H' : - x == - y) by now rewrite H.
  now rewrite (Qred_complete _ _ H').
Qed.

Lemma RN_representable (x : Q) : 0 <= x -> representable (RN x).
Proof.
  intros H. destruct (Qlt_le_dec 0 x) as [Hpos|Hle].
  - apply representable_scaled. eexists. split; [|apply (RN_pos x Hpos)].
    apply rnd53_significand. pose proof scale_pos. rewrite Qred_correct.
    apply Qmult_le_0_compat; lra.
  - rewrite (RN_zero x) by lra. exists 0%Z, 0%Z. repeat split; lia.
Qed.

Lemma Qabs_scaled (a x S : Q) :
  0 < S -> Qabs (a / S - x) == Qabs (a - x * S) / S.
Proof.
  intros HS. setoid_replace (a / S - x) with ((a - x * S) / S) by (field; lra).
  unfold Qdiv. rewrite Qabs_Qmult, Qabs_Qinv, (Qabs_pos S) by lra.
  reflexivity.
Qed.

Lemma RN_nearest (x y : Q) :
  0 <= x -> representable y -> Qabs (RN x - x) <= Qabs (y - x).
Proof.
  intros H Hy. pose proof scale_pos as HS.
  destruct (Qlt_le_dec 0 x) as [Hpos|Hle].
  - apply representable_scaled in Hy. destruct Hy as (K & HK & ->).
    rewrite (RN_pos x Hpos), !Qabs_scaled by exact HS.
    unfold Qdiv. apply Qmult_le_compat_r.
    + assert (E : x * inject_Z scale == Qred x * inject_Z scale)
        by now rewrite Qred_correct.
      rewrite !E. apply rnd53_nearest; [|exact HK].
      rewrite Qred_correct. apply Qmult_le_0_compat; lra.
    + apply Qlt_le_weak, Qinv_lt_0_compat, HS.
  - rewrite (RN_zero x) by lra.
    assert (E : 0 - x == 0) by lra. rewrite E. apply Qabs_nonneg.
Qed.

Lemma RN_id (x : Q) : representable x -> RN x == x.
Proof.
  intros H. pose proof (RN_nearest x x (representable_nonneg x H) H) as Hn.
  revert Hn. apply Qabs_case; intros H1; apply Qabs_case; intros H2 Hn; lra.
Qed.

Lemma RN_nonneg (x : Q) : 0 <= x -> 0 <= RN x.
Proof. intros H. apply representable_nonneg, RN_representable, H. Qed.

Lemma RN_mono (x y : Q) : 0 <= x -> x <= y -> RN x <= RN y.
Proof.
  intros Hx Hxy. assert (Hy : 0 <= y) by lra.
  destruct (Qlt_le_dec (RN y) (RN x)) as [Hlt|]; [|assumption].
  pose proof (RN_nearest x (RN y) Hx (RN_representable y Hy)) as H1.
  pose proof (RN_nearest y (RN x) Hy (RN_representable x Hx)) as H2.
  assert (E : x == y).
  { revert H1 H2.
    apply Qabs_case; intros A1; apply Qabs_case; intros A2;
      apply Qabs_case; intros A3; apply Qabs_case; intros A4 H1 H2; lra. }
  rewrite (RN_compat x y E). apply Qle_refl.
Qed.


(** Grids of doubles. *)

Lemma inject_Z_nonneg (z : Z) : (0 <= z)%Z -> 0 <= inject_Z z.
Proof. intros H. change 0 with (inject_Z 0). now rewrite <- Zle_Qle. Qed.

Lemma inject_Z_pred (K : Z) : inject_Z (K - 1) == inject_Z K - 1.
Proof. unfold Z.sub. rewrite inject_Z_plus, inject_Z_opp. reflexivity. Qed.

Lemma representable_grid (K e : Z) :
  (0 <= K <= 2 ^ 53)%Z -> (-1074 <= e)%Z ->
  representable (inject_Z K * pow2 e).
Proof.
  intros HK He. destruct (Z.eq_dec K (2 ^ 53)) as [E|NE].
  - exists (2 ^ 52)%Z, (e + 1)%Z. split; [lia|]. split; [lia|].
    rewrite E, pow2_succ.
    change (2 ^ 53)%Z with (2 * 2 ^ 52)%Z. rewrite inject_Z_mult.
    change (inject_Z 2) with 2. ring.
  - exists K, e. split; [lia|]. split; [lia|]. reflexivity.
Qed.

Lemma representable_Z (n : Z) :
  (0 <= n <= 2 ^ 53)%Z -> representable (inject_Z n).
Proof.
  intros H.
  destruct (representable_grid n 0 H ltac:(lia)) as (m & e & A & B & C).
  exists m, e. split; [exact A|]. split; [exact B|]. rewrite <- C.
  change (pow2 0) with 1. ring.
Qed.

Lemma RN_Z (n : Z) : (0 <= n <= 2 ^ 53)%Z -> RN (inject_Z n) == inject_Z n.
Proof. intros H. apply RN_id, representable_Z, H. Qed.

Lemma on_grid (x : Q) (k : Z) :
  representable x -> pow2 k <= x -> (-1074 <= k - 52)%Z ->
  exists K : Z, (0 <= K)%Z /\ x == inject_Z K * pow2 (k - 52).
Proof.
  intros (m & e & Hm & He & Hx) Hk Hmin.
  destruct (Z.le_gt_cases (k - 52) e) as [Hle|Hgt].
  - exists (m * 2 ^ (e - (k - 52)))%Z. split.
    + apply Z.mul_nonneg_nonneg; [lia|]. apply Z.pow_nonneg. lia.
    + rewrite Hx, inject_Z_mult, <- pow2_Z by lia.
      rewrite <- Qmult_assoc, <- pow2_add.
      replace (e - (k - 52) + (k - 52))%Z with e by lia. reflexivity.
  - exfalso. pose proof (pow2_pos e) as Hpe.
    assert (Hm' : inject_Z m <= inject_Z (2 ^ 53)).
    { rewrite <- Zle_Qle. lia. }
    assert (Htop : pow2 (53 + e) <= pow2 k) by (apply pow2_le; lia).
    rewrite pow2_add, (pow2_Z 53) in Htop by lia.
    assert (Hlt : inject_Z m < inject_Z (2 ^ 53)).
    { rewrite <- Zlt_Qlt. lia. }
    assert (inject_Z m * pow2 e < inject_Z (2 ^ 53) * pow2 e).
    { apply Qmult_lt_r; assumption. }
    lra.
Qed.

(** Half an ulp of absolute error below [2^(k+1)]. *)
Lemma RN_error (x : Q) (k : Z) :
  0 <= x -> x <= pow2 (k + 1) -> (-1074 <= k - 52)%Z ->
  Qabs (RN x - x) <= pow2 (k - 53).
Proof.
  intros Hx Hup Hmin. pose proof (pow2_pos (k - 52)) as Hg.
  assert (Hh : pow2 (k - 52) == 2 * pow2 (k - 53)).
  { rewrite <- pow2_succ. replace (k - 53 + 1)%Z with (k - 52)%Z by lia.
    reflexivity. }
  assert (Htop : pow2 (k + 1) == inject_Z (2 ^ 53) * pow2 (k - 52)).
  { rewrite <- pow2_Z, <- pow2_add by lia.
    replace (53 + (k - 52))%Z with (k + 1)%Z by lia. reflexivity. }
  set (g := pow2 (k - 52)) in *. set (j := Qfloor (x / g)).
  assert (Hxg : x == x / g * g) by (field; lra).
  pose proof (Qfloor_le (x / g)) as Hlo. pose proof (Qlt_floor (x / g)) as Hhi.
  fold j in Hlo, Hhi. rewrite inject_Z_plus in Hhi.
  change (inject_Z 1) with 1 in Hhi.
  assert (Hq0 : 0 <= x / g) by (apply Qle_shift_div_l; lra).
  assert (Hq1 : x / g <= inject_Z (2 ^ 53)).
  { apply Qle_shift_div_r; [exact Hg|]. lra. }
  assert (Hj0 : (0 <= j)%Z) by (apply floor_nonneg; exact Hq0).
  assert (Hj1 : (j <= 2 ^ 53)%Z).
  { rewrite <- (Qfloor_Z (2 ^ 53)). apply Qfloor_resp_le. exact Hq1. }
  assert (Hjg : inject_Z j * g <= x).
  { assert (inject_Z j * g <= x / g * g)
      by (apply Qmult_le_compat_r; lra).
    lra. }
  assert (Hjg' : x < (inject_Z j + 1) * g).
  { assert (x / g * g < (inject_Z j + 1) * g)
      by (apply Qmult_lt_r; lra).
    lra. }
  destruct (Qlt_le_dec (pow2 (k - 53)) (x - inject_Z j * g)) as [Hfar|Hnear].
  - assert (Hj2 : (j + 1 <= 2 ^ 53)%Z).
    { assert (inject_Z j < inject_Z (2 ^ 53)).
      { destruct (Qlt_le_dec (inject_Z j) (inject_Z (2 ^ 53))); [assumption|].
        assert (inject_Z (2 ^ 53) * g <= inject_Z j * g)
          by (apply Qmult_le_compat_r; lra).
        lra. }
      rewrite <- Zlt_Qlt in H. lia. }
    pose proof (RN_nearest x _ Hx
                  (representable_grid (j + 1) (k - 52) ltac:(lia) Hmin)) as Hn.
    fold g in Hn. rewrite inject_Z_plus in Hn.
    change (inject_Z 1) with 1 in Hn.
    revert Hn. apply Qabs_case; intros A1; apply Qabs_case; intros A2 Hn; lra.
  - pose proof (RN_nearest x _ Hx
                  (representable_grid j (k - 52) ltac:(lia) Hmin)) as Hn.
    fold g in Hn.
    revert Hn. apply Qabs_case; intros A1; apply Qabs_case; intros A2 Hn; lra.
Qed.

(** Any positive number above the least double lies in a binade. *)
Lemma binade (x : Q) :
  pow2 (-1074) <= x ->
  exists k : Z, (-1074 <= k)%Z /\ pow2 k <= x /\ x < pow2 (k + 1).
Proof.
  intros H. pose proof scale_pos as HS.
  assert (H1 : 1 <= x * inject_Z scale).
  { rewrite (pow2_scaled (-1074)) in H by lia. simpl Z.add in H.
    change (inject_Z (2 ^ 0)) with 1 in H.
    assert (1 / inject_Z scale * inject_Z scale <= x * inject_Z scale)
      by (apply Qmult_le_compat_r; lra).
    assert (1 / inject_Z scale * inject_Z scale == 1) by (field; lra).
    lra. }
  set (X := x * inject_Z scale) in *.
  assert (HN : (1 <= Qfloor X)%Z).
  { change 1%Z with (Qfloor 1). now apply Qfloor_resp_le. }
  destruct (Z.log2_spec (Qfloor X) ltac:(lia)) as [Hdn Hup].
  pose proof (Z.log2_nonneg (Qfloor X)) as HL.
  pose proof (Qfloor_le X) as Hlo. pose proof (Qlt_floor X) as Hhi.
  exists (Z.log2 (Qfloor X) - 1074)%Z. split; [lia|].
  rewrite !pow2_scaled by lia.
  replace (Z.log2 (Qfloor X) - 1074 + 1074)%Z with (Z.log2 (Qfloor X)) by lia.
  replace (Z.log2 (Qfloor X) - 1074 + 1 + 1074)%Z
    with (Z.succ (Z.log2 (Qfloor X))) by lia.
  assert (Hx : x == X / inject_Z scale) by (unfold X; field; lra).
  assert (Hup' : (Qfloor X + 1 <= 2 ^ Z.succ (Z.log2 (Qfloor X)))%Z) by lia.
  rewrite Zle_Qle in Hdn, Hup'. rewrite Hx. split.
  - apply Qmult_le_compat_r; [lra|]. apply Qlt_le_weak, Qinv_lt_0_compat, HS.
  - apply Qmult_lt_r; [apply Qinv_lt_0_compat, HS|]. lra.
Qed.


(** Results of [Math.random()] and products with them. *)

Lemma pow2_cancel (k : Z) : pow2 k * pow2 (- k) == 1.
Proof. rewrite <- pow2_add. now replace (k + - k)%Z with 0%Z by lia. Qed.

Lemma unitDouble_le (r : Q) : unitDouble r -> r <= 1 - pow2 (-53).
Proof.
  intros (Hrep & H0 & H1).
  assert (Hhalf : pow2 (-53) <= 1 # 2).
  { change (1 # 2) with (pow2 (-1)). apply pow2_le. lia. }
  destruct (Qlt_le_dec r (1 # 2)) as [Hlt|Hge]; [lra|].
  destruct (on_grid r (-1) Hrep Hge ltac:(lia)) as (K & HK & Hr).
  simpl Z.sub in Hr. pose proof (pow2_pos (-53)) as Hp.
  pose proof (pow2_cancel 53) as Hc. rewrite (pow2_Z 53) in Hc by lia.
  simpl Z.opp in Hc.
  assert (HK1 : (K < 2 ^ 53)%Z).
  { rewrite Zlt_Qlt.
    destruct (Qlt_le_dec (inject_Z K) (inject_Z (2 ^ 53))); [assumption|].
    assert (inject_Z (2 ^ 53) * pow2 (-53) <= inject_Z K * pow2 (-53))
      by (apply Qmult_le_compat_r; lra).
    lra. }
  assert (HK2 : inject_Z K <= inject_Z (2 ^ 53) - 1).
  { rewrite <- inject_Z_pred, <- Zle_Qle. lia. }
  assert (inject_Z K * pow2 (-53) <= (inject_Z (2 ^ 53) - 1) * pow2 (-53))
    by (apply Qmult_le_compat_r; lra).
  lra.
Qed.

Lemma RN_scaled_below (a r : Q) (k : Z) :
  representable a -> pow2 k <= a -> a < pow2 (k + 1) ->
  (-1074 <= k - 53)%Z -> 0 <= r -> r <= 1 - pow2 (-53) ->
  RN (r * a) < a.
Proof.
  intros Ha Hlo Hhi Hmin Hr0 Hr1.
  pose proof (pow2_pos k) as Hpk. pose proof (pow2_pos (-53)) as He.
  pose proof (pow2_pos (k - 52)) as Hg.
  assert (Hh : pow2 (k - 53) == pow2 k * pow2 (-53)).
  { rewrite <- pow2_add. now replace (k + -53)%Z with (k - 53)%Z by lia. }
  assert (Hgh : pow2 (k - 52) == 2 * pow2 (k - 53)).
  { rewrite <- pow2_succ. now replace (k - 53 + 1)%Z with (k - 52)%Z by lia. }
  assert (Htop : pow2 (k + 1) == inject_Z (2 ^ 53) * pow2 (k - 52)).
  { rewrite <- pow2_Z, <- pow2_add by lia.
    now replace (53 + (k - 52))%Z with (k + 1)%Z by lia. }
  destruct (on_grid a k Ha Hlo ltac:(lia)) as (K & HK0 & HaK).
  assert (HK1 : (1 <= K)%Z).
  { destruct (Z.eq_dec K 0) as [E|]; [|lia]. rewrite E in HaK.
    assert (Ez : inject_Z 0 * pow2 (k - 52) == 0) by apply Qmult_0_l.
    lra. }
  assert (HK2 : (K < 2 ^ 53)%Z).
  { rewrite Zlt_Qlt.
    destruct (Qlt_le_dec (inject_Z K) (inject_Z (2 ^ 53))); [assumption|].
    assert (inject_Z (2 ^ 53) * pow2 (k - 52) <= inject_Z K * pow2 (k - 52))
      by (apply Qmult_le_compat_r; lra).
    lra. }
  pose proof (representable_grid (K - 1) (k - 52) ltac:(lia) ltac:(lia))
    as Hp.
  assert (Hpa : inject_Z (K - 1) * pow2 (k - 52) == a - 2 * pow2 (k - 53)).
  { rewrite inject_Z_pred, HaK, <- Hgh. ring. }
  assert (Hx0 : 0 <= r * a) by (apply Qmult_le_0_compat; lra).
  assert (Hx1 : r * a <= (1 - pow2 (-53)) * a)
    by (apply Qmult_le_compat_r; lra).
  assert (Hx2 : pow2 k * pow2 (-53) <= a * pow2 (-53))
    by (apply Qmult_le_compat_r; lra).
  pose proof (RN_nearest (r * a) _ Hx0 Hp) as Hn. rewrite Hpa in Hn.
  destruct (Qlt_le_dec (r * a) (a - pow2 (k - 53))) as [Hlt|Hge].
  - revert Hn. apply Qabs_case; intros A1; apply Qabs_case; intros A2 Hn; lra.
  - assert (Ea : a == pow2 k).
    { assert (a * pow2 (-53) <= pow2 k * pow2 (-53)) by lra.
      apply Qmult_le_r in H; [lra | exact He]. }
    assert (Ex : r * a == inject_Z (2 ^ 53 - 1) * pow2 (k - 53)).
    { rewrite inject_Z_pred.
      assert (inject_Z (2 ^ 53) * pow2 (k - 53) == pow2 k).
      { rewrite <- pow2_Z, <- pow2_add by lia.
        now replace (53 + (k - 53))%Z with k by lia. }
      lra. }
    rewrite (RN_compat _ _ Ex).
    rewrite RN_id by (apply representable_grid; lia).
    rewrite <- Ex. lra.
Qed.

Lemma round_small (x : Q) :
  0 <= x -> x <= inject_Z (2 ^ 53) -> round x = Some (RN x).
Proof.
  intros H0 H1. unfold round, overflows.
  destruct (Qle_bool _ _) eqn:E; [|reflexivity].
  apply Qle_bool_iff in E. exfalso.
  pose proof (RN_mono x _ H0 H1) as Hm. rewrite RN_Z in Hm by lia.
  rewrite Qabs_pos in E by (apply RN_nonneg, H0).
  assert (inject_Z (2 ^ 53) < inject_Z (2 ^ 1024)).
  { rewrite <- Zlt_Qlt. apply Z.pow_lt_mono_r; lia. }
  lra.
Qed.

End Float64Facts.

(** * Properties of the selection engine *)

Module SpinFacts.
Import Float64 Float64Facts.
Local Open Scope Q_scope.

Lemma ofZ_small (z : Z) :
  (0 <= z <= 2 ^ 53)%Z -> ofZ z = Some (RN (inject_Z z)).
Proof.
  intros H. unfold ofZ. apply round_small.
  - apply inject_Z_nonneg. lia.
  - rewrite <- Zle_Qle. lia.
Qed.

Lemma Z_binade (n : Z) :
  (1 <= n)%Z ->
  exists k : Z, (0 <= k)%Z /\ pow2 k <= inject_Z n /\ inject_Z n < pow2 (k + 1).
Proof.
  intros H. destruct (Z.log2_spec n ltac:(lia)) as [Hlo Hhi].
  pose proof (Z.log2_nonneg n) as Hk.
  exists (Z.log2 n). split; [exact Hk|].
  rewrite !pow2_Z by lia. rewrite <- Zle_Qle, <- Zlt_Qlt.
  replace (Z.log2 n + 1)%Z with (Z.succ (Z.log2 n)) by lia. auto.
Qed.

(** A random draw times an array length stays below the length. *)
Lemma random_times_length (r : Q) (n : Z) :
  unitDouble r -> (1 <= n <= 2 ^ 53)%Z ->
  0 <= RN (r * inject_Z n) /\ RN (r * inject_Z n) < inject_Z n.
Proof.
  intros Hr Hn. pose proof (unitDouble_le r Hr) as Hle.
  destruct Hr as (_ & Hr0 & _).
  assert (Hn0 : 0 <= inject_Z n) by (apply inject_Z_nonneg; lia).
  split.
  - apply RN_nonneg. apply Qmult_le_0_compat; assumption.
  - destruct (Z_binade n ltac:(lia)) as (k & Hk & Hlo & Hhi).
    apply (RN_scaled_below _ _ k); auto; try lia.
    apply representable_Z. lia.
Qed.

Lemma length_pos (segments : list Segment.t) :
  segments <> [] -> (1 <= Z.of_nat (List.length segments))%Z.
Proof. destruct segments; [congruence | simpl List.length; lia]. Qed.

Lemma at_index_Z {A : Type} (l : list A) (i : Z) :
  (0 <= i)%Z -> at_index l (Some (inject_Z i)) = nth_error l (Z.to_nat i).
Proof.
  intros H. unfold at_index. rewrite Qfloor_Z, Qeq_bool_refl, andb_true_r.
  assert (E : Qle_bool 0 (inject_Z i) = true).
  { apply Qle_bool_iff, inject_Z_nonneg, H. }
  now rewrite E.
Qed.

Lemma spin_winningIndex (segments : list Segment.t) (r1 r2 : Q) :
  segments <> [] -> (Z.of_nat (List.length segments) < 2 ^ 32)%Z ->
  unitDouble r1 ->
  winningIndex (spin segments r1 r2) =
  Some (inject_Z
          (floor (RN (r1 * inject_Z (Z.of_nat (List.length segments)))))).
Proof.
  intros Hne Hlen Hr. pose proof (length_pos segments Hne) as Hpos.
  set (n := Z.of_nat (List.length segments)) in *.
  unfold spin. cbn [winningIndex]. unfold ofNat. fold n.
  rewrite ofZ_small by lia. unfold fmul, lift2.
  pose proof (RN_Z n ltac:(lia)) as HL.
  assert (E : r1 * RN (inject_Z n) == r1 * inject_Z n) by now rewrite HL.
  destruct Hr as (Hrep & Hr0 & Hr1).
  assert (Hn0 : 0 <= inject_Z n) by (apply inject_Z_nonneg; lia).
  assert (Hn1 : inject_Z n <= inject_Z (2 ^ 53)) by (rewrite <- Zle_Qle; lia).
  assert (Hx : r1 * inject_Z n <= inject_Z n).
  { setoid_replace (inject_Z n) with (1 * inject_Z n) at 2 by ring.
    apply Qmult_le_compat_r; lra. }
  rewrite round_small.
  - cbn [Math_floor option_map]. now rewrite (RN_compat _ _ E).
  - rewrite E. apply Qmult_le_0_compat; assumption.
  - rewrite E. lra.
Qed.

End SpinFacts.


Module TargetFacts.
Import Float64 Float64Facts SpinFacts.
Local Open Scope Q_scope.

Lemma representable_pow2 (k : Z) : (-1074 <= k)%Z -> representable (pow2 k).
Proof.
  intros H. exists 1%Z, k. split; [lia|]. split; [exact H|].
  change (inject_Z 1) with 1. ring.
Qed.

Lemma RN_pow2 (k : Z) : (-1074 <= k)%Z -> RN (pow2 k) == pow2 k.
Proof. intros H. apply RN_id, representable_pow2, H. Qed.

(** The rounded angle per segment, for [n] segments. *)
Lemma angle_facts (n : Z) :
  (1 <= n < 2 ^ 32)%Z ->
  let a := RN (360 / inject_Z n) in
  representable a /\
  a * inject_Z n <= 360 * (1 + pow2 (-53)) /\
  a <= 360 /\
  exists k : Z, (-24 <= k <= 8)%Z /\ pow2 k <= a /\ a < pow2 (k + 1).
Proof.
  intros Hn a.
  assert (Hn1 : 1 <= inject_Z n).
  { change 1 with (inject_Z 1). rewrite <- Zle_Qle. lia. }
  assert (Hn2 : inject_Z n <= 4294967296).
  { change 4294967296 with (inject_Z (2 ^ 32)). rewrite <- Zle_Qle. lia. }
  set (nQ := inject_Z n) in *. set (x0 := 360 / nQ) in *.
  assert (Hx : x0 * nQ == 360) by (unfold x0; field; lra).
  assert (Hx0 : 0 < x0) by (apply Qlt_shift_div_l; lra).
  assert (Hx360 : x0 <= 360).
  { apply Qle_shift_div_r; [lra|]. nra. }
  assert (E24 : pow2 (-24) == 1 # 16777216) by reflexivity.
  assert (E53 : pow2 (-53) == 1 # 9007199254740992) by reflexivity.
  assert (Hx24 : pow2 (-24) <= x0).
  { apply Qle_shift_div_l; [lra|]. rewrite E24. lra. }
  destruct (binade x0) as (k & Hk & Hlo & Hhi).
  { apply Qle_trans with (pow2 (-24)); [apply pow2_le; lia | exact Hx24]. }
  assert (Hk24 : (-24 <= k)%Z).
  { assert (pow2 (-24) < pow2 (k + 1)) by lra.
    apply Qpower_lt_compat_l_inv in H; [lia | reflexivity]. }
  assert (Hk8 : (k <= 8)%Z).
  { assert (pow2 k < pow2 9).
    { change (pow2 9) with 512. lra. }
    apply Qpower_lt_compat_l_inv in H; [lia | reflexivity]. }
  pose proof (RN_error x0 k ltac:(lra) ltac:(lra) ltac:(lia)) as Herr.
  fold a in Herr.
  assert (Hh : pow2 (k - 53) == pow2 k * pow2 (-53)).
  { rewrite <- pow2_add. now replace (k + -53)%Z with (k - 53)%Z by lia. }
  assert (Hrel : pow2 k * pow2 (-53) <= x0 * pow2 (-53)).
  { apply Qmult_le_compat_r; [exact Hlo|]. rewrite E53. lra. }
  assert (Hxe : 0 <= x0 * pow2 (-53)).
  { apply Qmult_le_0_compat; [lra|]. rewrite E53. lra. }
  assert (Ha_up : a <= x0 * (1 + pow2 (-53))).
  { revert Herr. apply Qabs_case; intros A1 Herr.
    - clear - Herr Hh Hrel Hxe. lra.
    - clear - A1 Hxe. lra. }
  assert (Ha_lo : pow2 k <= a).
  { apply Qle_trans with (RN (pow2 k)).
    - rewrite RN_pow2 by lia. apply Qle_refl.
    - apply RN_mono; [|exact Hlo]. apply Qlt_le_weak, pow2_pos. }
  assert (Ha_hi : a <= pow2 (k + 1)).
  { apply Qle_trans with (RN (pow2 (k + 1))).
    - apply RN_mono; lra.
    - rewrite RN_pow2 by lia. apply Qle_refl. }
  assert (Ha360 : a <= 360).
  { apply Qle_trans with (RN (inject_Z 360)).
    - apply RN_mono; [lra | exact Hx360].
    - rewrite RN_Z by lia. apply Qle_refl. }
  split; [apply RN_representable; lra|]. split; [|split; [exact Ha360|]].
  - assert (Hmul : a * nQ <= x0 * (1 + pow2 (-53)) * nQ)
      by (apply Qmult_le_compat_r; lra).
    assert (Hswap : x0 * (1 + pow2 (-53)) * nQ
                    == x0 * nQ * (1 + pow2 (-53))) by ring.
    rewrite Hx in Hswap. lra.
  - destruct (Qlt_le_dec a (pow2 (k + 1))) as [Hlt|Hge].
    + exists k. repeat split; auto; lia.
    + assert (Hk9 : a < pow2 9) by (change (pow2 9) with 512; lra).
      assert (Hk' : (k + 1 < 9)%Z).
      { assert (pow2 (k + 1) < pow2 9) by lra.
        apply Qpower_lt_compat_l_inv in H; [lia | reflexivity]. }
      exists (k + 1)%Z. repeat split; try lia; auto.
      apply Qle_lt_trans with (pow2 (k + 1)); [exact Ha_hi|].
      apply pow2_lt. lia.
Qed.


Lemma RN_lower (c : Z) (y : Q) :
  (0 <= c <= 2 ^ 53)%Z -> inject_Z c <= y -> inject_Z c <= RN y.
Proof.
  intros Hc Hy. apply Qle_trans with (RN (inject_Z c)).
  - rewrite RN_Z by exact Hc. apply Qle_refl.
  - apply RN_mono; [apply inject_Z_nonneg; lia | exact Hy].
Qed.

Lemma target_bounds (n index : Z) (r2 : Q) :
  (1 <= n < 2 ^ 32)%Z -> (0 <= index < n)%Z -> unitDouble r2 ->
  let a := RN (360 / inject_Z n) in
  let off := RN (r2 * a) in
  let t1 := RN (inject_Z index * a) in
  let t2 := RN (1440 + t1) in
  let t := RN (t2 + off) in
  (0 <= off /\ off < a /\ a <= 360) /\
  (0 <= inject_Z index * a <= 512 /\ 0 <= t1 <= 512) /\
  (1440 <= t2 <= 2048 /\ t2 + off <= 2048) /\
  1440 <= t /\ t <= 1800 + pow2 (-42).
Proof.
  intros Hn Hi Hr a off t1 t2 t.
  destruct (angle_facts n Hn) as (Ha_rep & Han & Ha360 & k & Hk & Hklo & Hkhi).
  fold a in Ha_rep, Han, Ha360, Hklo, Hkhi.
  pose proof (pow2_pos k) as Hpk.
  pose proof (unitDouble_le r2 Hr) as Hr1. destruct Hr as (_ & Hr0 & _).
  assert (E53 : pow2 (-53) == 1 # 9007199254740992) by reflexivity.
  assert (E45 : pow2 (-45) == 1 # 35184372088832) by reflexivity.
  assert (E43 : pow2 (-43) == 1 # 8796093022208) by reflexivity.
  assert (E42 : pow2 (-42) == 1 # 4398046511104) by reflexivity.
  assert (Hoff0 : 0 <= off).
  { apply RN_nonneg, Qmult_le_0_compat; lra. }
  assert (Hoff1 : off < a).
  { apply (RN_scaled_below a r2 k); auto; lia. }
  assert (Hi0 : 0 <= inject_Z index) by (apply inject_Z_nonneg; lia).
  assert (Hi1 : inject_Z index <= inject_Z n - 1).
  { rewrite <- inject_Z_pred, <- Zle_Qle. lia. }
  set (iQ := inject_Z index) in *. set (nQ := inject_Z n) in *.
  assert (Hy1a : 0 <= iQ * a) by (apply Qmult_le_0_compat; lra).
  assert (Hy1b : iQ * a <= a * nQ - a).
  { assert (iQ * a <= (nQ - 1) * a) by (apply Qmult_le_compat_r; lra).
    assert ((nQ - 1) * a == a * nQ - a) by ring. lra. }
  assert (Hy1c : iQ * a <= 512).
  { clear - Hy1b Han Hklo Hpk E53. lra. }
  pose proof (RN_error (iQ * a) 8 Hy1a Hy1c ltac:(lia)) as Herr1.
  fold t1 in Herr1. change (pow2 (8 - 53)) with (pow2 (-45)) in Herr1.
  assert (Ht1a : 0 <= t1) by (apply RN_nonneg, Hy1a).
  assert (Ht1b : t1 <= iQ * a + pow2 (-45)).
  { clear - Herr1. revert Herr1.
    apply Qabs_case; intros A Herr1; lra. }
  assert (Ht1c : t1 <= 512).
  { apply Qle_trans with (RN (inject_Z 512)).
    - apply RN_mono; assumption.
    - rewrite RN_Z by lia. apply Qle_refl. }
  assert (Hy2 : 1440 + t1 <= 2048) by (clear - Ht1c; lra).
  pose proof (RN_error (1440 + t1) 10 ltac:(clear - Ht1a; lra) Hy2
                ltac:(lia)) as Herr2.
  fold t2 in Herr2. change (pow2 (10 - 53)) with (pow2 (-43)) in Herr2.
  assert (Ht2a : 1440 <= t2).
  { apply (RN_lower 1440); [lia|].
    change (inject_Z 1440) with 1440. clear - Ht1a. lra. }
  assert (Ht2b : t2 <= 1440 + t1 + pow2 (-43)).
  { clear - Herr2. revert Herr2.
    apply Qabs_case; intros A Herr2; lra. }
  assert (Hsum : t2 + off
                 <= 1800 + 360 * pow2 (-53) + pow2 (-45) + pow2 (-43)).
  { clear - Ht2b Ht1b Hy1b Han Hoff1. lra. }
  assert (Hy3 : t2 + off <= 2048).
  { clear - Hsum E53 E45 E43. lra. }
  assert (Ht2c : t2 <= 2048) by (clear - Hy3 Hoff0; lra).
  pose proof (RN_error (t2 + off) 10 ltac:(clear - Ht2a Hoff0; lra) Hy3
                ltac:(lia)) as Herr3.
  fold t in Herr3. change (pow2 (10 - 53)) with (pow2 (-43)) in Herr3.
  assert (Hta : 1440 <= t).
  { apply (RN_lower 1440); [lia|].
    change (inject_Z 1440) with 1440. clear - Ht2a Hoff0. lra. }
  assert (Htb : t < 1800 + 2 * pow2 (-42)).
  { assert (t <= t2 + off + pow2 (-43)).
    { clear - Herr3. revert Herr3.
      apply Qabs_case; intros A Herr3; lra. }
    clear - H Hsum E53 E45 E43 E42. lra. }
  assert (Htrep : representable t).
  { apply RN_representable. clear - Ht2a Hoff0. lra. }
  destruct (on_grid t 10 Htrep) as (K & HK0 & HtK).
  { change (pow2 10) with 1024. clear - Hta. lra. }
  { lia. }
  change (pow2 (10 - 52)) with (pow2 (-42)) in HtK.
  assert (HK : (K <= 1800 * 2 ^ 42 + 1)%Z).
  { assert (inject_Z K < inject_Z (1800 * 2 ^ 42 + 2)).
    { change (inject_Z (1800 * 2 ^ 42 + 2)) with 7916483719987202.
      rewrite E42 in HtK, Htb. clear - Htb HtK. lra. }
    rewrite <- Zlt_Qlt in H. lia. }
  assert (Htc : t <= 1800 + pow2 (-42)).
  { rewrite Zle_Qle in HK.
    change (inject_Z (1800 * 2 ^ 42 + 1)) with 7916483719987201 in HK.
    rewrite E42 in *. clear - HK HtK. lra. }
  repeat split; assumption.
Qed.

End TargetFacts.

Module EngineFacts.
Import Float64 Float64Facts SpinFacts TargetFacts.
Local Open Scope Q_scope.

Lemma round_compat (x y : Q) : x == y -> round x = round y.
Proof. intros H. unfold round. now rewrite (RN_compat x y H). Qed.

Lemma fdiv_360 (n : Z) :
  (1 <= n < 2 ^ 32)%Z ->
  fdiv (ofZ 360) (ofZ n) = Some (RN (360 / inject_Z n)).
Proof.
  intros Hn. rewrite !ofZ_small by lia. unfold fdiv.
  pose proof (RN_Z n ltac:(lia)) as En.
  pose proof (RN_Z 360 ltac:(lia)) as E360.
  assert (Hn1 : 1 <= inject_Z n).
  { change 1 with (inject_Z 1). rewrite <- Zle_Qle. lia. }
  destruct (Qeq_bool (RN (inject_Z n)) 0) eqn:Ez.
  { apply Qeq_bool_eq in Ez. rewrite En in Ez. lra. }
  assert (E : RN (inject_Z 360) / RN (inject_Z n) == 360 / inject_Z n).
  { rewrite En, E360. reflexivity. }
  rewrite (round_compat _ _ E). apply round_small.
  - apply Qle_shift_div_l; lra.
  - apply Qle_shift_div_r; [lra|].
    change (inject_Z (2 ^ 53)) with 9007199254740992. nra.
Qed.

Lemma fmul_4_360 : exists c, fmul (ofZ 4) (ofZ 360) = Some c /\ c == 1440.
Proof.
  rewrite !ofZ_small by lia. unfold fmul, lift2.
  assert (E : RN (inject_Z 4) * RN (inject_Z 360) == inject_Z 1440).
  { rewrite !RN_Z by lia. reflexivity. }
  rewrite (round_compat _ _ E). rewrite round_small.
  - eexists. split; [reflexivity|]. apply RN_Z. lia.
  - apply inject_Z_nonneg. lia.
  - rewrite <- Zle_Qle. lia.
Qed.

(** The numbers computed by one spin, in terms of the rounding function. *)
Lemma spin_values (segments : list Segment.t) (r1 r2 : Q) :
  segments <> [] -> (Z.of_nat (List.length segments) < 2 ^ 32)%Z ->
  unitDouble r1 -> unitDouble r2 ->
  let n := Z.of_nat (List.length segments) in
  let index := inject_Z (floor (RN (r1 * inject_Z n))) in
  let a := RN (360 / inject_Z n) in
  let off := RN (r2 * a) in
  let t := RN (RN (1440 + RN (index * a)) + off) in
  winningIndex (spin segments r1 r2) = Some index /\
  anglePerSegment (spin segments r1 r2) = Some a /\
  randomOffset (spin segments r1 r2) = Some off /\
  targetRotation (spin segments r1 r2) = Some t.
Proof.
  intros Hne Hlen Hr1 Hr2 n index a off t.
  pose proof (length_pos segments Hne) as Hpos. fold n in Hpos, Hlen.
  pose proof (spin_winningIndex segments r1 r2 Hne Hlen Hr1) as Hw.
  fold n in Hw. fold index in Hw.
  destruct (random_times_length r1 n Hr1 ltac:(lia)) as [Hlo Hhi].
  assert (Hidx : (0 <= floor (RN (r1 * inject_Z n)) < n)%Z).
  { unfold floor. split.
    - apply floor_nonneg, Hlo.
    - rewrite Zlt_Qlt. pose proof (Qfloor_le (RN (r1 * inject_Z n))).
      apply Qle_lt_trans with (RN (r1 * inject_Z n)); assumption. }
  destruct (target_bounds n _ r2 ltac:(lia) Hidx Hr2)
    as ((Ho0 & Ho1 & Ha360) & ((Hy1a & Hy1b) & (Ht1a & Ht1b))
        & ((Ht2a & Ht2b) & Hy3) & _).
  fold index a off in Ho0, Ho1, Ha360, Hy1a, Hy1b, Ht1a, Ht1b, Ht2a, Ht2b, Hy3.
  assert (Ha : anglePerSegment (spin segments r1 r2) = Some a).
  { unfold spin. cbn [anglePerSegment]. unfold ofNat. fold n.
    apply fdiv_360. lia. }
  assert (Hoff : randomOffset (spin segments r1 r2) = Some off).
  { change (randomOffset (spin segments r1 r2))
      with (fmul (Some r2) (anglePerSegment (spin segments r1 r2))).
    rewrite Ha. unfold fmul, lift2. apply round_small.
    - clear - Ho0 Ho1 Hr2. destruct Hr2 as (_ & H0 & _).
      apply Qmult_le_0_compat; lra.
    - destruct Hr2 as (_ & H0 & H1).
      assert (r2 * a <= 1 * a) by (apply Qmult_le_compat_r; lra).
      change (inject_Z (2 ^ 53)) with 9007199254740992.
      clear - H Ha360. lra. }
  repeat split; try assumption.
  change (targetRotation (spin segments r1 r2))
    with (fadd (fadd (fmul (ofZ extraSpins) (ofZ 360))
                  (fmul (winningIndex (spin segments r1 r2))
                        (anglePerSegment (spin segments r1 r2))))
               (randomOffset (spin segments r1 r2))).
  rewrite Hw, Ha, Hoff. unfold extraSpins. destruct fmul_4_360 as (c & -> & Hc).
  assert (E512 : inject_Z 2048 <= inject_Z (2 ^ 53))
    by (rewrite <- Zle_Qle; lia).
  change (inject_Z 2048) with 2048 in E512.
  unfold fmul at 1. unfold lift2.
  rewrite (round_small (index * a)) by (clear - Hy1a Hy1b E512; lra).
  unfold fadd at 2. unfold lift2.
  assert (E : c + RN (index * a) == 1440 + RN (index * a)) by now rewrite Hc.
  rewrite (round_compat _ _ E).
  rewrite round_small by (clear - Ht1a Ht1b E512; lra).
  unfold fadd, lift2. apply round_small.
  - clear - Ht2a Ho0. lra.
  - clear - Hy3 E512. lra.
Qed.

End EngineFacts.

(** C2. For a non-empty segment list (a JS array, so shorter than [2^32])
    and a draw [r1] that is a double in [[0, 1)], the winning index is
    [Math.floor(r1 * segments.length)] in binary64 arithmetic, it lies in
    [[0, segments.length)], and the winner is the segment stored at that
    index, which exists. *)
Theorem spin_index_in_bounds (segments : list Segment.t) (r1 r2 : Q) :
  segments <> [] ->
  (Z.of_nat (List.length segments) < 2 ^ 32)%Z ->
  Float64.unitDouble r1 ->
  let n := Z.of_nat (List.length segments) in
  let index := Float64.floor (Float64.RN (r1 * inject_Z n)) in
  winningIndex (spin segments r1 r2) = Some (inject_Z index) /\
  (0 <= index < n)%Z /\
  spinWinner (spin segments r1 r2) = nth_error segments (Z.to_nat index) /\
  exists w, spinWinner (spin segments r1 r2) = Some w.
Proof.
  intros Hne Hlen Hr n index.
  pose proof (SpinFacts.length_pos segments Hne) as Hpos. fold n in Hpos, Hlen.
  pose proof (SpinFacts.spin_winningIndex segments r1 r2 Hne Hlen Hr) as Hw.
  fold n in Hw. fold index in Hw.
  destruct (SpinFacts.random_times_length r1 n Hr ltac:(lia)) as [Hlo Hhi].
  assert (Hidx : (0 <= index < n)%Z).
  { unfold index, Float64.floor. split.
    - apply Float64Facts.floor_nonneg, Hlo.
    - rewrite Zlt_Qlt. pose proof (Qfloor_le (Float64.RN (r1 * inject_Z n))).
      apply Qle_lt_trans with (Float64.RN (r1 * inject_Z n)); assumption. }
  assert (Hwin : spinWinner (spin segments r1 r2) =
                 nth_error segments (Z.to_nat index)).
  { change (spinWinner (spin segments r1 r2))
      with (at_index segments (winningIndex (spin segments r1 r2))).
    rewrite Hw. apply SpinFacts.at_index_Z. lia. }
  repeat split; try assumption; try lia.
  rewrite Hwin.
  destruct (nth_error segments (Z.to_nat index)) as [w|] eqn:E; [eauto|].
  apply nth_error_None in E. unfold n in Hidx. lia.
Qed.

Lemma spin_index_in_bounds_witness :
  let n := Z.of_nat (List.length [pizza; sushi]) in
  let index := Float64.floor (Float64.RN ((3 # 4) * inject_Z n)) in
  winningIndex (spin [pizza; sushi] (3 # 4) (1 # 2)) = Some (inject_Z index) /\
  (0 <= index < n)%Z /\
  spinWinner (spin [pizza; sushi] (3 # 4) (1 # 2)) =
    nth_error [pizza; sushi] (Z.to_nat index) /\
  exists w, spinWinner (spin [pizza; sushi] (3 # 4) (1 # 2)) = Some w.
Proof.
  apply (spin_index_in_bounds [pizza; sushi] (3 # 4) (1 # 2)).
  - discriminate.
  - simpl. lia.
  - split; [|split].
    + exists 3%Z, (-2)%Z. split; [lia|]. split; [lia|]. reflexivity.
    + unfold Qle; simpl; lia.
    + unfold Qlt; simpl; lia.
Defined.

(** C3, as the code has it.  For a non-empty segment list (a JS array, so
    shorter than [2^32]) and two draws that are doubles in [[0, 1)], every
    number of the spin is finite;
    [targetRotation] is the binary64 value of
    [extraSpins * 360 + winningIndex * anglePerSegment + randomOffset] with
    [anglePerSegment] the rounded [360 / n] and [randomOffset] the rounded
    [r2 * anglePerSegment]; the offset lies in [[0, anglePerSegment)]; and
    the target is at least 1440 and at most [1800 + 2^-42], the first double
    above 1800. *)
Theorem spin_target_rotation_bounds (segments : list Segment.t) (r1 r2 : Q) :
  segments <> [] ->
  (Z.of_nat (List.length segments) < 2 ^ 32)%Z ->
  Float64.unitDouble r1 -> Float64.unitDouble r2 ->
  exists index a off t : Q,
    winningIndex (spin segments r1 r2) = Some index /\
    anglePerSegment (spin segments r1 r2) = Some a /\
    randomOffset (spin segments r1 r2) = Some off /\
    targetRotation (spin segments r1 r2) = Some t /\
    a = Float64.RN (360 / inject_Z (Z.of_nat (List.length segments))) /\
    off = Float64.RN (r2 * a) /\
    t = Float64.RN
          (Float64.RN (inject_Z (extraSpins * 360)
                       + Float64.RN (index * a)) + off) /\
    (0 <= off)%Q /\ (off < a)%Q /\
    (1440 <= t)%Q /\ (t <= 1800 + Float64.pow2 (-42))%Q.
Proof.
  intros Hne Hlen Hr1 Hr2.
  pose proof (SpinFacts.length_pos segments Hne) as Hpos.
  destruct (EngineFacts.spin_values segments r1 r2 Hne Hlen Hr1 Hr2)
    as (Hw & Ha & Ho & Ht).
  destruct (SpinFacts.random_times_length r1
              (Z.of_nat (List.length segments)) Hr1 ltac:(lia))
    as [Hlo Hhi].
  assert (Hidx : (0 <= Float64.floor
                    (Float64.RN
                       (r1 * inject_Z (Z.of_nat (List.length segments))))
                  < Z.of_nat (List.length segments))%Z).
  { unfold Float64.floor. split.
    - apply Float64Facts.floor_nonneg, Hlo.
    - rewrite Zlt_Qlt. eapply Qle_lt_trans; [apply Qfloor_le | exact Hhi]. }
  destruct (TargetFacts.target_bounds _ _ r2 (conj Hpos Hlen) Hidx Hr2)
    as ((Ho0 & Ho1 & _) & _ & _ & Ht0 & Ht1).
  do 4 eexists. split; [exact Hw|]. split; [exact Ha|]. split; [exact Ho|].
  split; [exact Ht|]. repeat split; assumption.
Qed.

Lemma spin_target_rotation_bounds_witness :
  exists index a off t : Q,
    winningIndex (spin [pizza; sushi] (3 # 4) (1 # 2)) = Some index /\
    anglePerSegment (spin [pizza; sushi] (3 # 4) (1 # 2)) = Some a /\
    randomOffset (spin [pizza; sushi] (3 # 4) (1 # 2)) = Some off /\
    targetRotation (spin [pizza; sushi] (3 # 4) (1 # 2)) = Some t /\
    a = Float64.RN (360 / inject_Z (Z.of_nat (List.length [pizza; sushi]))) /\
    off = Float64.RN ((1 # 2) * a) /\
    t = Float64.RN
          (Float64.RN (inject_Z (extraSpins * 360)
                       + Float64.RN (index * a)) + off) /\
    (0 <= off)%Q /\ (off < a)%Q /\
    (1440 <= t)%Q /\ (t <= 1800 + Float64.pow2 (-42))%Q.
Proof.
  apply (spin_target_rotation_bounds [pizza; sushi] (3 # 4) (1 # 2)).
  - discriminate.
  - simpl. lia.
  - split; [|split].
    + exists 3%Z, (-2)%Z. split; [lia|]. split; [lia|]. reflexivity.
    + unfold Qle; simpl; lia.
    + unfold Qlt; simpl; lia.
  - split; [|split].
    + exists 1%Z, (-1)%Z. split; [lia|]. split; [lia|]. reflexivity.
    + unfold Qle; simpl; lia.
    + unfold Qlt; simpl; lia.
Defined.

Lemma unitDouble_zero : Float64.unitDouble 0.
Proof.
  split; [|split].
  - exists 0%Z, 0%Z. split; [lia|]. split; [lia|]. reflexivity.
  - unfold Qle; simpl; lia.
  - unfold Qlt; simpl; lia.
Qed.

Lemma unitDouble_maxDraw : Float64.unitDouble maxDraw.
Proof.
  split; [|split].
  - exists 9007199254740991%Z, (-53)%Z. split; [lia|]. split; [lia|].
    reflexivity.
  - unfold Qle; simpl; lia.
  - unfold Qlt; simpl; lia.
Qed.

(** C3 as stated fails: with one segment and the largest draw the target is
    exactly 1800, and with 42 segments it is above 1800. *)
Lemma spin_target_reaches_1800 :
  Float64.unitDouble 0 /\ Float64.unitDouble maxDraw /\
  targetRotation (spin [tacos] 0 maxDraw) = Some 1800%Q /\
  ~ (1800 < 1800)%Q /\
  targetRotation (spin manySegments maxDraw maxDraw) =
    Some (7916483719987201 # 4398046511104) /\
  (1800 < 7916483719987201 # 4398046511104)%Q.
Proof.
  split; [exact unitDouble_zero|]. split; [exact unitDouble_maxDraw|].
  split; [vm_compute; reflexivity|]. split; [apply Qlt_irrefl|].
  split; [vm_compute; reflexivity|]. unfold Qlt; simpl; lia.
Qed.

(** The same three targets computed with the library's IEEE-754 operations. *)
Lemma targetRotation_agrees_with_SpecFloat :
  Float64.SF2Q maxDrawSF = Some maxDraw /\
  Float64.SF2Q (targetRotationSF 1 0 maxDrawSF) =
    targetRotation (spin [tacos] 0 maxDraw) /\
  Float64.SF2Q (targetRotationSF 42 41 maxDrawSF) =
    targetRotation (spin manySegments maxDraw maxDraw) /\
  Float64.SF2Q (targetRotationSF 2 0 (S754_finite false 1 (-1))) =
    targetRotation (spin [pizza; sushi] 0 (1 # 2)).
Proof. repeat apply conj; vm_compute; reflexivity. Qed.

(** C4 fails on the code.  Two segments, draws 0 and 1/2: the winner is
    segment 0 and the target is 1530 degrees; once the wheel is turned
    clockwise by 1530 degrees the pointer sits at angle 270 of the wheel,
    inside wedge 1 and outside wedge 0. *)
Theorem spin_pointer_misses_winner :
  winningIndex (spin [pizza; sushi] 0 (1 # 2)) = Some 0%Q /\
  spinWinner (spin [pizza; sushi] 0 (1 # 2)) = Some pizza /\
  targetRotation (spin [pizza; sushi] 0 (1 # 2)) = Some 1530%Q /\
  startAngle 2 0 = Some 0%Q /\ endAngle 2 0 = Some 180%Q /\
  startAngle 2 1 = Some 180%Q /\ endAngle 2 1 = Some 360%Q /\
  pointerAngle 1530 = 270%Q /\
  underPointer 2 0 1530 = false /\
  underPointer 2 1 1530 = true.
Proof. repeat apply conj; vm_compute; reflexivity. Qed.

(** With a zero offset the pointer stops on the edge of the wedge. *)
Lemma spin_pointer_on_boundary :
  randomOffset (spin [tacos] 0 0) = Some 0%Q /\
  targetRotation (spin [tacos] 0 0) = Some 1440%Q /\
  startAngle 1 0 = Some 0%Q /\
  pointerAngle 1440 = 0%Q /\
  strictlyUnderPointer 1 0 1440 = false.
Proof. repeat apply conj; vm_compute; reflexivity. Qed.

(** * Further properties of the store, the load and the engine *)

Module MoreFacts.

Lemma wheel_eta (w : Wheel.t) :
  Wheel.mk (Wheel.id w) (Wheel.name w) (Wheel.segments w) = w.
Proof. destruct w; reflexivity. Qed.

Lemma segment_eta (x : Segment.t) :
  Segment.mk (Segment.id x) (Segment.label x) = x.
Proof. destruct x; reflexivity. Qed.

Lemma map_fixed {A : Type} (f : A -> A) (l : list A) :
  (forall x, In x l -> f x = x) -> map f l = l.
Proof.
  intros H. rewrite <- (map_id l) at 2. apply map_ext_in. exact H.
Qed.

Lemma find_none_all {A : Type} (p : A -> bool) (l : list A) :
  (forall x, In x l -> p x = false) -> find p l = None.
Proof.
  induction l as [|x l IH]; simpl; intros H; [reflexivity|].
  rewrite (H x (or_introl eq_refl)). apply IH. auto.
Qed.

Lemma find_app_right {A : Type} (p : A -> bool) (l : list A) (x : A) :
  (forall y, In y l -> p y = false) -> p x = true ->
  find p (l ++ [x]) = Some x.
Proof.
  induction l as [|y l IH]; simpl; intros H Hx.
  - now rewrite Hx.
  - rewrite (H y (or_introl eq_refl)). apply IH; auto.
Qed.

Lemma id_injective (ws : list Wheel.t) (w w' : Wheel.t) :
  NoDup (map Wheel.id ws) -> In w ws -> In w' ws ->
  Wheel.id w = Wheel.id w' -> w = w'.
Proof.
  induction ws as [|x ws IH]; simpl; intros Hnd Hw Hw' E; [contradiction|].
  inversion Hnd as [|? ? Hnin Hnd']; subst.
  destruct Hw as [->|Hw], Hw' as [->|Hw']; auto.
  - exfalso. apply Hnin. rewrite E. now apply in_map.
  - exfalso. apply Hnin. rewrite <- E. now apply in_map.
Qed.

Lemma activeWheel_member (s : State) (w : Wheel.t) :
  activeWheel s = Some w -> In w (wheels s).
Proof.
  unfold activeWheel.
  destruct (find _ (wheels s)) as [x|] eqn:E.
  - intros [= <-]. now apply find_some in E.
  - destruct (wheels s); simpl; [discriminate|]. intros [= <-]. now left.
Qed.

Lemma activeWheel_none (s : State) : activeWheel s = None <-> wheels s = [].
Proof.
  unfold activeWheel. split.
  - destruct (find _ (wheels s)); [discriminate|].
    destruct (wheels s); [reflexivity | discriminate].
  - intros ->. reflexivity.
Qed.

(** In a list with distinct ids, a map that rebuilds the wheels carrying the
    id of a member [aw] changes nothing when it fixes [aw]. *)
Lemma rebuild_fixed (ws : list Wheel.t) (aw : Wheel.t)
  (g : Wheel.t -> Wheel.t) :
  NoDup (map Wheel.id ws) -> In aw ws -> g aw = aw ->
  map (fun wheel => if Wheel.id wheel =? Wheel.id aw then g wheel else wheel)
      ws = ws.
Proof.
  intros Hnd Hin Hg. apply map_fixed. intros w Hw.
  destruct (String.eqb_spec (Wheel.id w) (Wheel.id aw)) as [E|]; auto.
  now rewrite (id_injective ws w aw Hnd Hw Hin E).
Qed.

Lemma state_eta (s : State) :
  mkState (wheels s) (activeWheelId s) (selectedSegmentId s) (isSpinning s)
    (spinValue s) (animation s) = s.
Proof. destruct s; reflexivity. Qed.

Lemma setWheels_same (s : State) : setWheels (wheels s) s = s.
Proof. apply state_eta. Qed.

End MoreFacts.

(** X1. The active wheel is absent exactly when there are no wheels; when
    present it is one of the wheels; it carries the id [activeWheelId] when
    some wheel has that id, and is the first wheel when none has. *)
Theorem activeWheel_spec (s : State) :
  (activeWheel s = None <-> wheels s = []) /\
  (forall w, activeWheel s = Some w -> In w (wheels s)) /\
  (forall w, In w (wheels s) -> activeWheelId s = Some (Wheel.id w) ->
             exists w', activeWheel s = Some w' /\ Wheel.id w' = Wheel.id w) /\
  ((forall w, In w (wheels s) -> activeWheelId s <> Some (Wheel.id w)) ->
   activeWheel s = hd_error (wheels s)).
Proof.
  split; [apply MoreFacts.activeWheel_none|].
  split; [apply MoreFacts.activeWheel_member|]. split.
  - intros w Hin Hact. unfold activeWheel.
    destruct (find _ (wheels s)) as [x|] eqn:E.
    + exists x. split; [reflexivity|]. apply find_some in E.
      destruct E as [_ E]. apply DeleteFacts.strict_eq_true in E.
      congruence.
    + exfalso. apply (find_none _ _ E) in Hin. rewrite Hact in Hin.
      simpl in Hin. now rewrite String.eqb_refl in Hin.
  - intros H. unfold activeWheel. rewrite MoreFacts.find_none_all; auto.
    intros x Hx. destruct (strict_eq _ _) eqn:E; [|reflexivity].
    apply DeleteFacts.strict_eq_true in E. now apply H in Hx.
Qed.

(** X2. Whenever there is an active wheel, the effect that copies its id
    leaves [activeWheelId] naming it, changes neither the wheels, the active
    wheel nor the selection, and running it again changes nothing. *)
Theorem syncActiveWheelId_references (s : State) (w : Wheel.t) :
  activeWheel s = Some w ->
  activeWheelId (syncActiveWheelId s) = Some (Wheel.id w) /\
  activeWheel (syncActiveWheelId s) = Some w /\
  wheels (syncActiveWheelId s) = wheels s /\
  selectedSegmentId (syncActiveWheelId s) = selectedSegmentId s /\
  syncActiveWheelId (syncActiveWheelId s) = syncActiveWheelId s.
Proof.
  intros Haw.
  assert (E : syncActiveWheelId s = setActiveWheelId (Some (Wheel.id w)) s).
  { unfold syncActiveWheelId. now rewrite Haw. }
  assert (Haw' : activeWheel (setActiveWheelId (Some (Wheel.id w)) s)
                 = Some w).
  { revert Haw. unfold activeWheel. simpl.
    destruct (find _ (wheels s)) as [x|] eqn:Ef.
    - intros [= ->]. pose proof Ef as Ef'. apply find_some in Ef'.
      destruct Ef' as [_ Ea]. apply DeleteFacts.strict_eq_true in Ea.
      rewrite Ea in Ef. simpl in Ef. now rewrite Ef.
    - destruct (wheels s) as [|x rest]; simpl; [discriminate|].
      intros [= ->]. now rewrite String.eqb_refl. }
  rewrite E. repeat split; auto.
  unfold syncActiveWheelId at 1. rewrite Haw'. reflexivity.
Qed.

(** X3. With distinct wheel ids, pressing the chip of a wheel clears the
    selection and the winner label, keeps the wheels, and makes exactly that
    wheel the active one; an id that no wheel has falls back to the first
    wheel. *)
Theorem setActiveWheel_selects (s : State) (wheelId : Id) :
  NoDup (map Wheel.id (wheels s)) ->
  selectedSegmentId (setActiveWheel wheelId s) = None /\
  winnerLabel (setActiveWheel wheelId s) = "" /\
  wheels (setActiveWheel wheelId s) = wheels s /\
  (forall w, In w (wheels s) -> Wheel.id w = wheelId ->
             activeWheel (setActiveWheel wheelId s) = Some w) /\
  (~ In wheelId (map Wheel.id (wheels s)) ->
   activeWheel (setActiveWheel wheelId s) = hd_error (wheels s)).
Proof.
  intros Hnd. split; [reflexivity|]. split.
  { unfold winnerLabel. simpl.
    destruct (activeWheel (setActiveWheel wheelId s)); reflexivity. }
  split; [reflexivity|]. split.
  - intros w Hin Hid. unfold activeWheel. simpl.
    destruct (find _ (wheels s)) as [x|] eqn:E.
    + apply find_some in E. destruct E as [Hx E].
      apply String.eqb_eq in E. f_equal.
      apply (MoreFacts.id_injective (wheels s)); auto. congruence.
    + apply (find_none _ _ E) in Hin. simpl in Hin.
      rewrite <- Hid, String.eqb_refl in Hin. discriminate.
  - intros Hnin. unfold activeWheel. simpl.
    rewrite MoreFacts.find_none_all; auto.
    intros x Hx. apply String.eqb_neq. intros E. apply Hnin.
    rewrite E. now apply in_map.
Qed.

(** X4. When the generated id is new, [addWheel] appends one wheel named
    "Wheel N+1" (N wheels before) with a single "Default" segment after the
    existing wheels, makes it the active wheel and clears the selection. *)
Theorem addWheel_appends_and_activates (tw ts : Stamp) (s : State) :
  ~ In (freshId tw) (map Wheel.id (wheels s)) ->
  let w :=
    Wheel.mk (freshId tw)
      (String.append "Wheel " (decimal (List.length (wheels s) + 1)))
      [Segment.mk (freshId ts) "Default"] in
  wheels (addWheel tw ts s) = wheels s ++ [w] /\
  activeWheel (addWheel tw ts s) = Some w /\
  activeWheelId (addWheel tw ts s) = Some (freshId tw) /\
  selectedSegmentId (addWheel tw ts s) = None.
Proof.
  intros Hfresh w. split; [reflexivity|]. split; [|split; reflexivity].
  unfold activeWheel, addWheel. simpl.
  rewrite MoreFacts.find_app_right; auto.
  - intros y Hy. apply String.eqb_neq. intros E. apply Hfresh.
    rewrite E. now apply in_map.
  - simpl. apply String.eqb_refl.
Qed.

Module EditMore.

Lemma filter_absent (segmentId : Id) (l : list Segment.t) :
  ~ In segmentId (map Segment.id l) ->
  filter (fun segment => negb (Segment.id segment =? segmentId)) l = l.
Proof.
  intros H. apply ListFacts.filter_all. intros x Hx.
  destruct (String.eqb_spec (Segment.id x) segmentId) as [E|]; auto.
  exfalso. apply H. rewrite <- E. now apply in_map.
Qed.

Lemma relabel_absent (segmentId : Id) (label : string) (l : list Segment.t) :
  ~ In segmentId (map Segment.id l) ->
  map (fun segment =>
         if Segment.id segment =? segmentId
         then Segment.mk (Segment.id segment) label else segment) l = l.
Proof.
  intros H. apply MoreFacts.map_fixed. intros x Hx.
  destruct (String.eqb_spec (Segment.id x) segmentId) as [E|]; auto.
  exfalso. apply H. rewrite <- E. now apply in_map.
Qed.

Lemma ensureSegments_nonempty (t : Stamp) (l : list Segment.t) :
  (1 <= List.length l)%nat -> ensureSegments t l = l.
Proof. destruct l; simpl; [lia | reflexivity]. Qed.

(** An update whose patch rebuilds the active wheel as it was is a no-op. *)
Lemma updateWheel_fixed (s : State) (aw : Wheel.t) (u : Wheel.t -> Patch) :
  NoDup (map Wheel.id (wheels s)) -> activeWheel s = Some aw ->
  spread aw (u aw) = aw ->
  updateWheel (Wheel.id aw) u s = s.
Proof.
  intros Hnd Haw Hfix. unfold updateWheel.
  rewrite (MoreFacts.rebuild_fixed (wheels s) aw (fun w => spread w (u w)));
    auto using MoreFacts.activeWheel_member, MoreFacts.setWheels_same.
Qed.

Lemma valid_active (s : State) :
  valid s -> exists aw, activeWheel s = Some aw /\ In aw (wheels s) /\
                        (1 <= List.length (Wheel.segments aw))%nat.
Proof.
  intros [[Hlen Hall] _].
  destruct (EditFacts.activeWheel_some s Hlen) as [aw Haw].
  exists aw. split; [exact Haw|].
  pose proof (MoreFacts.activeWheel_member s aw Haw) as Hin.
  split; [exact Hin|]. rewrite Forall_forall in Hall. exact (Hall aw Hin).
Qed.

Lemma activeWheel_addSegment (t : Stamp) (s : State) (aw : Wheel.t) :
  activeWheel s = Some aw ->
  activeWheel (addSegment t s) =
    Some (Wheel.mk (Wheel.id aw) (Wheel.name aw)
            (Wheel.segments aw ++
             [Segment.mk (freshId t)
                (String.append "Segment "
                   (decimal (List.length (Wheel.segments aw) + 1)))])).
Proof.
  intros Haw. unfold addSegment. rewrite Haw.
  rewrite EditFacts.activeWheel_updateWheel, Haw. simpl.
  now rewrite String.eqb_refl.
Qed.

End EditMore.

(** X5. [addSegment] appends to the active wheel one segment labelled
    "Segment k+1" (k segments before), keeping its id, name and earlier
    segments, and leaves [activeWheelId] and the selection alone. *)
Theorem addSegment_appends (t : Stamp) (s : State) (aw : Wheel.t) :
  activeWheel s = Some aw ->
  activeWheel (addSegment t s) =
    Some (Wheel.mk (Wheel.id aw) (Wheel.name aw)
            (Wheel.segments aw ++
             [Segment.mk (freshId t)
                (String.append "Segment "
                   (decimal (List.length (Wheel.segments aw) + 1)))])) /\
  selectedSegmentId (addSegment t s) = selectedSegmentId s /\
  activeWheelId (addSegment t s) = activeWheelId s.
Proof.
  intros Haw. split; [now apply EditMore.activeWheel_addSegment|].
  unfold addSegment. rewrite Haw. auto.
Qed.

(** X6. With distinct wheel ids, relabelling a segment id that the active
    wheel does not hold leaves the whole state unchanged. *)
Theorem updateSegmentLabel_absent_noop (segmentId : Id) (label : string)
  (s : State) (aw : Wheel.t) :
  NoDup (map Wheel.id (wheels s)) -> activeWheel s = Some aw ->
  ~ In segmentId (map Segment.id (Wheel.segments aw)) ->
  updateSegmentLabel segmentId label s = s.
Proof.
  intros Hnd Haw Hnin. unfold updateSegmentLabel. rewrite Haw.
  apply EditMore.updateWheel_fixed; auto.
  unfold spread; simpl. rewrite EditMore.relabel_absent by exact Hnin.
  apply MoreFacts.wheel_eta.
Qed.

(** X7. Relabelling the same segment twice is the same as relabelling it once
    with the second label. *)
Theorem updateSegmentLabel_last_wins (segmentId : Id) (l1 l2 : string)
  (s : State) :
  updateSegmentLabel segmentId l2 (updateSegmentLabel segmentId l1 s) =
  updateSegmentLabel segmentId l2 s.
Proof.
  unfold updateSegmentLabel at 2 3.
  destruct (activeWheel s) as [aw|] eqn:Haw.
  - unfold updateSegmentLabel.
    rewrite EditFacts.activeWheel_updateWheel, Haw. simpl.
    rewrite String.eqb_refl. simpl. unfold updateWheel, setWheels. simpl.
    f_equal. rewrite map_map. apply map_ext. intros w.
    destruct (Wheel.id w =? Wheel.id aw) eqn:E; simpl; rewrite E; auto.
    unfold spread; simpl. f_equal. rewrite map_map. apply map_ext.
    intros x. destruct (Segment.id x =? segmentId) eqn:Ex; simpl;
      rewrite Ex; reflexivity.
  - unfold updateSegmentLabel. now rewrite Haw.
Qed.

(** X8. [renameWheel] replaces the name of the active wheel and keeps its id
    and segments; of two renames in a row only the second counts; with
    distinct wheel ids, renaming to the current name changes nothing. *)
Theorem renameWheel_renames (n1 n2 : string) (s : State) (aw : Wheel.t) :
  activeWheel s = Some aw ->
  activeWheel (renameWheel n1 s) =
    Some (Wheel.mk (Wheel.id aw) n1 (Wheel.segments aw)) /\
  renameWheel n2 (renameWheel n1 s) = renameWheel n2 s /\
  (NoDup (map Wheel.id (wheels s)) ->
   renameWheel (Wheel.name aw) s = s).
Proof.
  intros Haw. split; [|split].
  - unfold renameWheel. rewrite Haw.
    rewrite EditFacts.activeWheel_updateWheel, Haw. simpl.
    now rewrite String.eqb_refl.
  - unfold renameWheel at 2 3. rewrite Haw. unfold renameWheel.
    rewrite EditFacts.activeWheel_updateWheel, Haw. simpl.
    rewrite String.eqb_refl. simpl. unfold updateWheel, setWheels. simpl.
    f_equal. rewrite map_map. apply map_ext. intros w.
    destruct (Wheel.id w =? Wheel.id aw) eqn:E; simpl; rewrite E; auto.
  - intros Hnd. unfold renameWheel. rewrite Haw.
    apply EditMore.updateWheel_fixed; auto. apply MoreFacts.wheel_eta.
Qed.

(** X9. In a valid state, deleting a segment id that the active wheel does
    not hold keeps the wheels and the active wheel, and keeps the whole state
    unless that id was the selected one. *)
Theorem deleteSegment_absent_noop (t : Stamp) (segmentId : Id) (s : State) :
  valid s ->
  (forall aw, activeWheel s = Some aw ->
              ~ In segmentId (map Segment.id (Wheel.segments aw))) ->
  wheels (deleteSegment t segmentId s) = wheels s /\
  activeWheel (deleteSegment t segmentId s) = activeWheel s /\
  (selectedSegmentId s <> Some segmentId ->
   deleteSegment t segmentId s = s).
Proof.
  intros Hv Hnin. pose proof Hv as [_ Hnd].
  destruct (EditMore.valid_active s Hv) as (aw & Haw & Hin & Hlen).
  specialize (Hnin aw Haw).
  assert (E : updateWheel (Wheel.id aw)
                (fun wheel => mkPatch None
                   (Some (ensureSegments t
                      (filter (fun segment =>
                                 negb (Segment.id segment =? segmentId))
                              (Wheel.segments wheel))))) s = s).
  { apply EditMore.updateWheel_fixed; auto. unfold spread; simpl.
    rewrite EditMore.filter_absent by exact Hnin.
    rewrite EditMore.ensureSegments_nonempty by exact Hlen.
    apply MoreFacts.wheel_eta. }
  unfold deleteSegment. rewrite Haw, E.
  destruct (strict_eq (selectedSegmentId s) segmentId) eqn:Es.
  - repeat split; auto. intros Hne.
    apply DeleteFacts.strict_eq_true in Es. contradiction.
  - repeat split; auto.
Qed.

(** X10. Adding a wheel with a new id to a non-empty collection and deleting
    it again restores the wheels; the first wheel, not the previously active
    one, ends up active, and the selection is cleared. *)
Theorem addWheel_deleteWheel (tw ts : Stamp) (s : State) :
  (1 <= List.length (wheels s))%nat ->
  ~ In (freshId tw) (map Wheel.id (wheels s)) ->
  let s' := deleteWheel (freshId tw) (addWheel tw ts s) in
  wheels s' = wheels s /\
  activeWheel s' = hd_error (wheels s) /\
  selectedSegmentId s' = None.
Proof.
  intros Hlen Hfresh s'.
  assert (Hf : filter (fun wheel => negb (Wheel.id wheel =? freshId tw))
                 (wheels (addWheel tw ts s)) = wheels s).
  { unfold addWheel; simpl. rewrite filter_app. simpl.
    rewrite String.eqb_refl. simpl. rewrite app_nil_r.
    apply ListFacts.filter_all. intros x Hx.
    destruct (String.eqb_spec (Wheel.id x) (freshId tw)) as [E|]; auto.
    exfalso. apply Hfresh. rewrite <- E. now apply in_map. }
  assert (Hs' : s' = setSelectedSegmentId None
                  (setActiveWheelId
                     (js_or (option_map Wheel.id (hd_error (wheels s))) None)
                     (setWheels (wheels s) (addWheel tw ts s)))).
  { unfold s', deleteWheel.
    assert (Hl : (List.length (wheels (addWheel tw ts s)) =? 1)%nat = false).
    { apply Nat.eqb_neq. unfold addWheel; simpl. rewrite length_app.
      simpl. lia. }
    rewrite Hl, ListFacts.find_hd_filter, Hf.
    assert (Ha : strict_eq (activeWheelId (addWheel tw ts s)) (freshId tw)
                 = true) by (simpl; apply String.eqb_refl).
    rewrite Ha. reflexivity. }
  rewrite Hs'. split; [reflexivity|]. split; [|reflexivity].
  destruct (wheels s) as [|w0 rest] eqn:Ews; [simpl in Hlen; lia|].
  apply DeleteFacts.activeWheel_head; reflexivity.
Qed.

(** X11. In a valid state, adding a segment with a new id and deleting it
    again restores the wheels. *)
Theorem addSegment_deleteSegment (t t' : Stamp) (s : State) :
  valid s ->
  (forall aw, activeWheel s = Some aw ->
              ~ In (freshId t) (map Segment.id (Wheel.segments aw))) ->
  wheels (deleteSegment t' (freshId t) (addSegment t s)) = wheels s.
Proof.
  intros Hv Hnin. pose proof Hv as [_ Hnd].
  destruct (EditMore.valid_active s Hv) as (aw & Haw & Hin & Hlen).
  specialize (Hnin aw Haw).
  pose proof (EditMore.activeWheel_addSegment t s aw Haw) as Haw'.
  unfold deleteSegment. rewrite Haw'. simpl Wheel.id.
  assert (E : wheels (updateWheel (Wheel.id aw)
                (fun wheel => mkPatch None
                   (Some (ensureSegments t'
                      (filter (fun segment =>
                                 negb (Segment.id segment =? freshId t))
                              (Wheel.segments wheel)))))
                (addSegment t s)) = wheels s).
  { unfold addSegment. rewrite Haw. unfold updateWheel, setWheels. simpl.
    rewrite map_map.
    set (u1 := fun wheel : Wheel.t =>
                 mkPatch None
                   (Some (Wheel.segments wheel ++
                          [createSegment t
                             (Some (String.append "Segment "
                                (decimal
                                   (List.length (Wheel.segments wheel)
                                    + 1))))]))).
    set (u2 := fun wheel : Wheel.t =>
                 mkPatch None
                   (Some (ensureSegments t'
                      (filter (fun segment =>
                                 negb (Segment.id segment =? freshId t))
                              (Wheel.segments wheel))))).
    assert (Hfix : spread (spread aw (u1 aw)) (u2 (spread aw (u1 aw))) = aw).
    { unfold spread, u1, u2; simpl. rewrite filter_app. simpl.
      rewrite String.eqb_refl. simpl. rewrite app_nil_r.
      rewrite EditMore.filter_absent by exact Hnin.
      rewrite EditMore.ensureSegments_nonempty by exact Hlen.
      apply MoreFacts.wheel_eta. }
    pose proof (MoreFacts.rebuild_fixed (wheels s) aw
                  (fun w => spread (spread w (u1 w)) (u2 (spread w (u1 w))))
                  Hnd Hin Hfix) as Hmap.
    rewrite <- Hmap at 2. apply map_ext. intros w.
    destruct (Wheel.id w =? Wheel.id aw) eqn:Ew; simpl; rewrite Ew;
      reflexivity. }
  destruct (strict_eq _ _); exact E.
Qed.

Module LoadMore.

(** [activeWheel] reads only [wheels] and [activeWheelId]. *)
Lemma activeWheel_ext (s s' : State) :
  wheels s' = wheels s -> activeWheelId s' = activeWheelId s ->
  activeWheel s' = activeWheel s.
Proof. intros Hw Ha. unfold activeWheel. now rewrite Hw, Ha. Qed.

Lemma activeWheel_null (s : State) :
  activeWheelId s = None -> activeWheel s = hd_error (wheels s).
Proof.
  intros H. unfold activeWheel. rewrite H.
  now rewrite MoreFacts.find_none_all.
Qed.

Lemma truthy_nonempty (a : string) : a <> "" -> truthy a = true.
Proof.
  intros H. unfold truthy.
  destruct (String.eqb_spec a ""); [contradiction | reflexivity].
Qed.

End LoadMore.

(** X12. When [JSON.parse] inverts [JSON.stringify] on the snapshot of a
    non-empty collection, a successful [persist] followed by [load] restores
    the wheels; a non-empty [activeWheelId] is restored, the active wheel is
    the same unless [activeWheelId] was the empty string, and the selection
    is not part of what is restored. *)
Theorem persist_load_round_trip (JSON_stringify : Snapshot -> string)
  (JSON_parse : string -> Parsed) (s s0 : State) (stored : option string)
  (tw ts : Stamp) :
  (1 <= List.length (wheels s))%nat ->
  truthy (JSON_stringify (snapshot s)) = true ->
  JSON_parse (JSON_stringify (snapshot s)) = ParsedObject (snapshot s) ->
  let item := persist JSON_stringify true s stored in
  let s' := load JSON_parse (Item item) tw ts s0 in
  item = Some (JSON_stringify (snapshot s)) /\
  wheels s' = wheels s /\
  (forall a, activeWheelId s = Some a -> a <> "" ->
             activeWheelId s' = Some a) /\
  (activeWheelId s <> Some "" -> activeWheel s' = activeWheel s) /\
  selectedSegmentId s' = selectedSegmentId s0.
Proof.
  intros Hlen Htruthy Hparse item s'.
  assert (Hitem : item = Some (JSON_stringify (snapshot s))).
  { unfold item, persist.
    destruct (Nat.eqb_spec (List.length (wheels s)) 0); [lia | reflexivity]. }
  assert (Hs' : s' =
    setActiveWheelId
      (js_or (activeWheelId s)
         (js_or (option_map Wheel.id (hd_error (wheels s))) None))
      (setWheels (wheels s) s0)).
  { unfold s'. rewrite Hitem. simpl. rewrite Htruthy, Hparse. reflexivity. }
  split; [exact Hitem|]. rewrite Hs'. split; [reflexivity|]. split; [|split].
  - intros a Ha Hne. simpl. rewrite Ha. simpl.
    now rewrite LoadMore.truthy_nonempty.
  - intros Hne. destruct (activeWheelId s) as [a|] eqn:Ha.
    + apply LoadMore.activeWheel_ext; [reflexivity|]. simpl. rewrite Ha.
      simpl. rewrite LoadMore.truthy_nonempty; [reflexivity|].
      intros E. apply Hne. now rewrite E.
    + rewrite (LoadMore.activeWheel_null s Ha).
      destruct (wheels s) as [|w0 rest] eqn:Ews; [simpl in Hlen; lia|].
      apply DeleteFacts.activeWheel_head; simpl; now rewrite ?Ews.
  - reflexivity.
Qed.

(** X13. A stored item that parses to an object without wheels (or with an
    empty list) is loaded as an empty collection: no active wheel, the size
    bound broken, an empty winner label; [addWheel] then yields the valid
    collection of one wheel named "Wheel 1". *)
Theorem load_snapshot_without_wheels (JSON_parse : string -> Parsed)
  (raw : string) (p : Snapshot) (tw ts tw' ts' : Stamp) :
  truthy raw = true -> JSON_parse raw = ParsedObject p ->
  snap_wheels p = None \/ snap_wheels p = Some [] ->
  let s := load JSON_parse (Item (Some raw)) tw ts initialState in
  wheels s = [] /\ activeWheel s = None /\ ~ bounds s /\
  winnerLabel s = "" /\
  wheels (addWheel tw' ts' s) =
    [Wheel.mk (freshId tw') "Wheel 1" [Segment.mk (freshId ts') "Default"]] /\
  valid (addWheel tw' ts' s).
Proof.
  intros Ht Hp Hw s.
  assert (Hws : wheels s = []).
  { unfold s. simpl. rewrite Ht, Hp. destruct Hw as [-> | ->]; reflexivity. }
  assert (Haw : activeWheel s = None)
    by (apply MoreFacts.activeWheel_none; exact Hws).
  split; [exact Hws|]. split; [exact Haw|]. split; [|split; [|split]].
  - intros [Hlen _]. rewrite Hws in Hlen. simpl in Hlen. lia.
  - unfold winnerLabel. now rewrite Haw.
  - unfold addWheel. simpl. rewrite Hws. reflexivity.
  - unfold valid, bounds, bounded, addWheel. simpl. rewrite Hws. simpl.
    split; [split|].
    + lia.
    + repeat constructor.
    + repeat constructor. intros [].
Qed.

(** X14. Validity, and with it both size bounds, hold after any sequence of
    actions from a valid state, provided each generated wheel id is new when
    it is generated. *)
Theorem valid_run (actions : list Action) (s : State) :
  valid s -> freshRun actions s ->
  valid (run actions s) /\ bounds (run actions s).
Proof.
  revert s. induction actions as [|a rest IH]; simpl; intros s Hv Hf.
  - split; [exact Hv | exact (proj1 Hv)].
  - destruct Hf as [Ha Hrest]. apply IH; [|exact Hrest].
    apply ValidFacts.valid_step; [exact Hv|].
    intros tw ts ->. exact Ha.
Qed.

(** X15. Every wedge index gets a colour of the palette, with period 6;
    neighbouring indices get different colours; fill and label colour of a
    wedge always differ, selected or not; an index that is a multiple of 6
    gets the colour of wedge 0. *)
Theorem palette_colors (index : nat) :
  (exists c, paletteColor index = Some c /\ In c COLORS) /\
  paletteColor (index + 6) = paletteColor index /\
  paletteColor (index + 1) <> paletteColor index /\
  (forall sel seg, fillColor sel seg index <> textFill sel seg index) /\
  (index mod 6 = 0%nat -> paletteColor index = paletteColor 0).
Proof.
  unfold fillColor, textFill, paletteColor.
  change (List.length COLORS) with 6%nat.
  assert (H6 : ((index + 6) mod 6 = index mod 6)%nat).
  { rewrite <- (Nat.Div0.add_mod_idemp_r index 6 6).
    rewrite Nat.Div0.mod_same, Nat.add_0_r. reflexivity. }
  assert (H1 : ((index + 1) mod 6 = (index mod 6 + 1) mod 6)%nat).
  { now rewrite Nat.Div0.add_mod_idemp_l. }
  rewrite H6, H1.
  pose proof (Nat.mod_upper_bound index 6 ltac:(lia)) as Hk.
  set (k := (index mod 6)%nat) in *.
  assert (Hcases : (k = 0 \/ k = 1 \/ k = 2 \/ k = 3 \/ k = 4 \/ k = 5)%nat)
    by lia.
  split; [|split; [reflexivity|split; [|split]]].
  - destruct Hcases as [->|[->|[->|[->|[->| ->]]]]]; simpl;
      eexists; split; try reflexivity; simpl; tauto.
  - destruct Hcases as [->|[->|[->|[->|[->| ->]]]]]; simpl; discriminate.
  - intros sel seg. destruct (isSelected sel seg);
      destruct Hcases as [->|[->|[->|[->|[->| ->]]]]]; simpl; discriminate.
  - intros ->. reflexivity.
Qed.

Module SpinMore.

Lemma floor_unique (z : Q) (i : Z) :
  (inject_Z i <= z)%Q -> (z < inject_Z i + 1)%Q -> Qfloor z = i.
Proof.
  intros Hlo Hhi. pose proof (Qfloor_le z) as H1.
  pose proof (Qlt_floor z) as H2. rewrite inject_Z_plus in H2.
  change (inject_Z 1) with 1%Q in H2.
  assert (A : (inject_Z (Qfloor z) < inject_Z (i + 1))%Q).
  { rewrite inject_Z_plus. change (inject_Z 1) with 1%Q. lra. }
  assert (B : (inject_Z i < inject_Z (Qfloor z + 1))%Q).
  { rewrite inject_Z_plus. change (inject_Z 1) with 1%Q. lra. }
  rewrite <- Zlt_Qlt in A, B. lia.
Qed.

(** The winner of a spin is a member of the segment list. *)
Lemma spin_winner_member (segments : list Segment.t) (r1 r2 : Q) :
  segments <> [] -> (Z.of_nat (List.length segments) < 2 ^ 32)%Z ->
  Float64.unitDouble r1 ->
  exists w, spinWinner (spin segments r1 r2) = Some w /\ In w segments.
Proof.
  intros Hne Hlen Hr.
  pose proof (SpinFacts.length_pos segments Hne) as Hpos.
  pose proof (SpinFacts.spin_winningIndex segments r1 r2 Hne Hlen Hr) as Hw.
  destruct (SpinFacts.random_times_length r1
              (Z.of_nat (List.length segments)) Hr ltac:(lia)) as [Hlo Hhi].
  set (index := Float64.floor
                  (Float64.RN
                     (r1 * inject_Z (Z.of_nat (List.length segments))))) in *.
  assert (Hidx : (0 <= index < Z.of_nat (List.length segments))%Z).
  { unfold index, Float64.floor. split.
    - apply Float64Facts.floor_nonneg, Hlo.
    - rewrite Zlt_Qlt. eapply Qle_lt_trans; [apply Qfloor_le | exact Hhi]. }
  change (spinWinner (spin segments r1 r2))
    with (at_index segments (winningIndex (spin segments r1 r2))).
  rewrite Hw, SpinFacts.at_index_Z by lia.
  destruct (nth_error segments (Z.to_nat index)) as [w|] eqn:E.
  - exists w. split; [reflexivity|]. eapply nth_error_In, E.
  - apply nth_error_None in E. lia.
Qed.

Lemma find_unique (l : list Segment.t) (w : Segment.t) :
  NoDup (map Segment.id l) -> In w l ->
  find (fun seg => Segment.id seg =? Segment.id w) l = Some w.
Proof.
  induction l as [|x l IH]; simpl; intros Hnd Hin; [contradiction|].
  inversion Hnd as [|? ? Hnin Hnd']; subst.
  destruct Hin as [->|Hin].
  - now rewrite String.eqb_refl.
  - destruct (String.eqb_spec (Segment.id x) (Segment.id w)) as [E|].
    + exfalso. apply Hnin. rewrite E. now apply in_map.
    + now apply IH.
Qed.

Lemma activeWheel_animationEnd (s : State) :
  activeWheel (animationEnd s) = activeWheel s.
Proof.
  apply LoadMore.activeWheel_ext.
  - apply StoreFacts.wheels_animationEnd.
  - unfold animationEnd. destruct (animation s) as [a|]; [|reflexivity].
    destruct (winner a); reflexivity.
Qed.

Lemma animation_deleteSegment (t : Stamp) (segmentId : Id) (s : State) :
  animation (deleteSegment t segmentId s) = animation s.
Proof.
  unfold deleteSegment. destruct (activeWheel s); [|reflexivity].
  destruct (strict_eq _ _); reflexivity.
Qed.

End SpinMore.

(** X16. A spin started from rest and run to completion records a segment of
    the active wheel as selected, clears the spinning flag and the animation
    and keeps the wheels and the active wheel; with distinct segment ids and
    a non-empty winner id, the winner label is that segment's label. *)
Theorem spin_cycle_records_winner (r1 r2 : Q) (s : State) (aw : Wheel.t) :
  activeWheel s = Some aw -> isSpinning s = false ->
  Wheel.segments aw <> [] ->
  (Z.of_nat (List.length (Wheel.segments aw)) < 2 ^ 32)%Z ->
  Float64.unitDouble r1 ->
  let s' := animationEnd (spinWheel r1 r2 s) in
  exists w,
    In w (Wheel.segments aw) /\
    selectedSegmentId s' = Some (Segment.id w) /\
    isSpinning s' = false /\ animation s' = None /\
    wheels s' = wheels s /\ activeWheel s' = Some aw /\
    (NoDup (map Segment.id (Wheel.segments aw)) -> Segment.id w <> "" ->
     winnerLabel s' = Segment.label w).
Proof.
  intros Haw Hidle Hne Hlen Hr s'.
  destruct (SpinMore.spin_winner_member _ r1 r2 Hne Hlen Hr)
    as (w & Hw & Hin).
  assert (Hs' : s' =
    setSelectedSegmentId (Some (Segment.id w))
      (setIsSpinning false
         (setSpinValue (targetRotation (spin (Wheel.segments aw) r1 r2))
            (setAnimation None
               (setSpinValue (Some 0%Q)
                  (setSelectedSegmentId None (setIsSpinning true s))))))).
  { unfold s', spinWheel. rewrite Haw, Hidle. unfold animationEnd.
    cbn [animation setAnimation winner toValue]. rewrite Hw. reflexivity. }
  assert (Haw' : activeWheel s' = Some aw).
  { rewrite <- Haw. apply LoadMore.activeWheel_ext; rewrite Hs'; reflexivity. }
  exists w. split; [exact Hin|].
  split; [rewrite Hs'; reflexivity|]. split; [rewrite Hs'; reflexivity|].
  split; [rewrite Hs'; reflexivity|]. split; [rewrite Hs'; reflexivity|].
  split; [exact Haw'|].
  intros Hnd Hid. unfold winnerLabel. rewrite Haw'.
  assert (Hsel : selectedSegmentId s' = Some (Segment.id w))
    by (rewrite Hs'; reflexivity).
  rewrite Hsel, (LoadMore.truthy_nonempty _ Hid).
  now rewrite SpinMore.find_unique.
Qed.

(** X17. If the winning segment is deleted while the animation is in flight,
    the completion callback still records its id: the selection then names a
    segment the active wheel no longer holds, and the winner label is
    empty. *)
Theorem winner_deleted_mid_spin (t : Stamp) (s : State) (aw : Wheel.t)
  (a : Animation) (w : Segment.t) :
  activeWheel s = Some aw -> animation s = Some a -> winner a = Some w ->
  freshId t <> Segment.id w ->
  let s' := animationEnd (deleteSegment t (Segment.id w) s) in
  selectedSegmentId s' = Some (Segment.id w) /\
  isSpinning s' = false /\
  (exists aw', activeWheel s' = Some aw' /\
               ~ In (Segment.id w) (map Segment.id (Wheel.segments aw'))) /\
  winnerLabel s' = "".
Proof.
  intros Haw Han Hwin Hfresh s'.
  assert (Hsel : selectedSegmentId s' = Some (Segment.id w) /\
                 isSpinning s' = false).
  { unfold s', animationEnd.
    rewrite SpinMore.animation_deleteSegment, Han, Hwin. split; reflexivity. }
  set (rest := filter (fun segment =>
                         negb (Segment.id segment =? Segment.id w))
                      (Wheel.segments aw)).
  assert (Haw' : activeWheel s' =
                 Some (Wheel.mk (Wheel.id aw) (Wheel.name aw)
                         (ensureSegments t rest))).
  { unfold s'. rewrite SpinMore.activeWheel_animationEnd.
    unfold deleteSegment. rewrite Haw.
    assert (E : forall x : State, activeWheel
              (if strict_eq (selectedSegmentId s) (Segment.id w)
               then setSelectedSegmentId None x else x) = activeWheel x).
    { intros x. destruct (strict_eq _ _); reflexivity. }
    rewrite E, EditFacts.activeWheel_updateWheel, Haw. simpl.
    now rewrite String.eqb_refl. }
  assert (Hnin : ~ In (Segment.id w) (map Segment.id (ensureSegments t rest))).
  { rewrite EditFacts.ensureSegments_cases.
    destruct rest as [|x rest'] eqn:Er.
    - simpl. intros [E|[]]. contradiction.
    - rewrite <- Er. intros Hin. apply in_map_iff in Hin.
      destruct Hin as (y & Ey & Hy). unfold rest in Hy.
      apply filter_In in Hy. destruct Hy as [_ Hy].
      rewrite Ey, String.eqb_refl in Hy. discriminate. }
  destruct Hsel as [Hsel Hspin]. split; [exact Hsel|]. split; [exact Hspin|].
  split; [eexists; split; [exact Haw' | exact Hnin]|].
  unfold winnerLabel. rewrite Haw', Hsel. simpl Wheel.segments.
  destruct (truthy (Segment.id w)); [|reflexivity].
  rewrite MoreFacts.find_none_all; [reflexivity|].
  intros x Hx. apply String.eqb_neq. intros E. apply Hnin.
  rewrite <- E. now apply in_map.
Qed.

Module FairFacts.
Import Float64 Float64Facts.
Local Open Scope Q_scope.

(** The draw nearest to the middle of the [i]-th of [n] equal intervals. *)
Lemma middle_draw (n i : Z) :
  (1 <= n < 2 ^ 32)%Z -> (0 <= i < n)%Z ->
  let r := RN (inject_Z (2 * i + 1) / inject_Z (2 * n)) in
  unitDouble r /\ floor (RN (r * inject_Z n)) = i.
Proof.
  intros Hn Hi r.
  assert (Hn1 : 1 <= inject_Z n).
  { change 1 with (inject_Z 1). rewrite <- Zle_Qle. lia. }
  assert (Hn2 : inject_Z n <= 4294967296).
  { change 4294967296 with (inject_Z (2 ^ 32)). rewrite <- Zle_Qle. lia. }
  assert (Hi0 : 0 <= inject_Z i) by (apply inject_Z_nonneg; lia).
  assert (Hi1 : inject_Z i <= inject_Z n - 1).
  { rewrite <- inject_Z_pred, <- Zle_Qle. lia. }
  assert (E2i : inject_Z (2 * i + 1) == 2 * inject_Z i + 1).
  { rewrite inject_Z_plus, inject_Z_mult. reflexivity. }
  assert (E2n : inject_Z (2 * n) == 2 * inject_Z n).
  { rewrite inject_Z_mult. reflexivity. }
  set (q := inject_Z (2 * i + 1) / inject_Z (2 * n)) in *.
  set (nQ := inject_Z n) in *. set (iQ := inject_Z i) in *.
  assert (Hqn : q * nQ == iQ + (1 # 2)).
  { unfold q. rewrite E2i, E2n. field. lra. }
  assert (E33 : pow2 (-33) == 1 # 8589934592) by reflexivity.
  assert (E54 : pow2 (-54) == 1 # 18014398509481984) by reflexivity.
  assert (E22 : pow2 (-22) == 1 # 4194304) by reflexivity.
  assert (Hq0 : 0 <= q).
  { unfold q. rewrite E2i, E2n. apply Qle_shift_div_l; lra. }
  assert (Hq1 : q <= 1 - pow2 (-33)).
  { unfold q. rewrite E2i, E2n, E33. apply Qle_shift_div_r; [lra|].
    clear - Hi1 Hn1 Hn2. nra. }
  assert (Hrep33 : representable (1 - pow2 (-33))).
  { exists (2 ^ 33 - 1)%Z, (-33)%Z. split; [lia|]. split; [lia|].
    reflexivity. }
  assert (Hr0 : 0 <= r) by (apply RN_nonneg, Hq0).
  assert (Hr1 : r < 1).
  { apply Qle_lt_trans with (RN (1 - pow2 (-33))).
    - apply RN_mono; assumption.
    - rewrite (RN_id _ Hrep33), E33. reflexivity. }
  assert (Herr : Qabs (r - q) <= pow2 (-54)).
  { apply (RN_error q (-1)); [exact Hq0 | | lia].
    change (pow2 (-1 + 1)) with 1. rewrite E33 in Hq1. lra. }
  split.
  { split; [apply RN_representable, Hq0|]. split; assumption. }
  assert (Hy : iQ + (1 # 2) - pow2 (-22) <= r * nQ /\
               r * nQ <= iQ + (1 # 2) + pow2 (-22)).
  { assert (A : (r - q) * nQ <= pow2 (-54) * nQ /\
                - (pow2 (-54) * nQ) <= (r - q) * nQ).
    { revert Herr. apply Qabs_case; intros S Herr; split.
      - apply Qmult_le_compat_r; lra.
      - assert (0 <= (r - q) * nQ) by (apply Qmult_le_0_compat; lra).
        rewrite E54. lra.
      - assert (0 <= (q - r) * nQ) by (apply Qmult_le_0_compat; lra).
        assert ((q - r) * nQ == - ((r - q) * nQ)) by ring.
        rewrite E54. lra.
      - assert ((q - r) * nQ <= pow2 (-54) * nQ)
          by (apply Qmult_le_compat_r; lra).
        assert ((q - r) * nQ == - ((r - q) * nQ)) by ring. lra. }
    assert (B : (r - q) * nQ == r * nQ - (iQ + (1 # 2))).
    { rewrite <- Hqn. ring. }
    rewrite E54 in A. rewrite E22. clear - A B Hn2. lra. }
  destruct Hy as [Hylo Hyhi].
  assert (Hy0 : 0 <= r * nQ) by (apply Qmult_le_0_compat; lra).
  assert (Hy32 : r * nQ <= pow2 (31 + 1)).
  { change (pow2 (31 + 1)) with 4294967296.
    assert (r * nQ <= 1 * nQ) by (apply Qmult_le_compat_r; lra). lra. }
  pose proof (RN_error (r * nQ) 31 Hy0 Hy32 ltac:(lia)) as Herr2.
  change (pow2 (31 - 53)) with (pow2 (-22)) in Herr2.
  unfold floor. apply SpinMore.floor_unique; fold iQ.
  - revert Herr2. rewrite E22 in *.
    apply Qabs_case; intros S Herr2; clear - S Herr2 Hylo; lra.
  - revert Herr2. rewrite E22 in *.
    apply Qabs_case; intros S Herr2; clear - S Herr2 Hyhi; lra.
Qed.

End FairFacts.

(** X18. For every position of a segment list there is a double in [[0, 1)]
    which, as first draw, makes the segment at that position the winner,
    whatever the second draw. *)
Theorem every_segment_can_win (segments : list Segment.t) (i : nat) :
  (i < List.length segments)%nat ->
  (Z.of_nat (List.length segments) < 2 ^ 32)%Z ->
  exists r1 : Q,
    Float64.unitDouble r1 /\
    forall r2 : Q,
      winningIndex (spin segments r1 r2) = Some (inject_Z (Z.of_nat i)) /\
      spinWinner (spin segments r1 r2) = nth_error segments i.
Proof.
  intros Hi Hlen.
  assert (Hne : segments <> []).
  { intros ->. simpl in Hi. lia. }
  destruct (FairFacts.middle_draw (Z.of_nat (List.length segments))
              (Z.of_nat i) ltac:(lia) ltac:(lia)) as [Hr Hfl].
  eexists. split; [exact Hr|]. intros r2.
  pose proof (SpinFacts.spin_winningIndex segments _ r2 Hne Hlen Hr) as Hw.
  rewrite Hfl in Hw. split; [exact Hw|].
  change (spinWinner (spin segments ?r r2))
    with (at_index segments (winningIndex (spin segments r r2))).
  rewrite Hw, SpinFacts.at_index_Z by lia. now rewrite Nat2Z.id.
Qed.

(** X19. Of two first draws, the larger never selects an earlier index; both
    indices lie within the list, and the draw 0 selects the first segment. *)
Theorem winning_index_monotone (segments : list Segment.t)
  (r r' r2 r2' : Q) :
  segments <> [] -> (Z.of_nat (List.length segments) < 2 ^ 32)%Z ->
  Float64.unitDouble r -> Float64.unitDouble r' -> (r <= r')%Q ->
  exists i i' : Z,
    winningIndex (spin segments r r2) = Some (inject_Z i) /\
    winningIndex (spin segments r' r2') = Some (inject_Z i') /\
    (0 <= i <= i')%Z /\ (i' < Z.of_nat (List.length segments))%Z /\
    spinWinner (spin segments 0 r2) = hd_error segments.
Proof.
  intros Hne Hlen Hr Hr' Hle.
  pose proof (SpinFacts.length_pos segments Hne) as Hpos.
  set (n := Z.of_nat (List.length segments)) in *.
  do 2 eexists.
  split; [apply (SpinFacts.spin_winningIndex segments r r2 Hne Hlen Hr)|].
  split; [apply (SpinFacts.spin_winningIndex segments r' r2' Hne Hlen Hr')|].
  fold n.
  destruct (SpinFacts.random_times_length r n Hr ltac:(lia)) as [Hlo _].
  destruct (SpinFacts.random_times_length r' n Hr' ltac:(lia)) as [_ Hhi'].
  assert (Hn0 : (0 <= inject_Z n)%Q)
    by (apply Float64Facts.inject_Z_nonneg; lia).
  destruct Hr as (_ & Hr0 & _).
  split; [split|split].
  - apply Float64Facts.floor_nonneg, Hlo.
  - unfold Float64.floor. apply Qfloor_resp_le, Float64Facts.RN_mono.
    + apply Qmult_le_0_compat; assumption.
    + apply Qmult_le_compat_r; assumption.
  - unfold Float64.floor. rewrite Zlt_Qlt.
    eapply Qle_lt_trans; [apply Qfloor_le | exact Hhi'].
  - pose proof (SpinFacts.spin_winningIndex segments 0 r2 Hne Hlen
                  unitDouble_zero) as Hw0.
    fold n in Hw0.
    rewrite (Float64Facts.RN_zero (0 * inject_Z n)) in Hw0 by ring.
    change (spinWinner (spin segments 0 r2))
      with (at_index segments (winningIndex (spin segments 0 r2))).
    rewrite Hw0. destruct segments; reflexivity.
Qed.

(** ** Instances *)

Lemma activeWheel_spec_witness : In lunch (wheels twoWheels).
Proof.
  apply (proj1 (proj2 (activeWheel_spec twoWheels)) lunch). reflexivity.
Defined.

Lemma syncActiveWheelId_references_witness :
  let s := mkState [lunch; dinner] None (Some "s1") false (Some 0%Q) None in
  activeWheelId (syncActiveWheelId s) = Some (Wheel.id lunch) /\
  activeWheel (syncActiveWheelId s) = Some lunch /\
  wheels (syncActiveWheelId s) = wheels s /\
  selectedSegmentId (syncActiveWheelId s) = selectedSegmentId s /\
  syncActiveWheelId (syncActiveWheelId s) = syncActiveWheelId s.
Proof.
  apply (syncActiveWheelId_references
           (mkState [lunch; dinner] None (Some "s1") false (Some 0%Q) None)
           lunch).
  reflexivity.
Defined.

Lemma setActiveWheel_selects_witness :
  NoDup (map Wheel.id (wheels twoWheels)) /\
  activeWheel (setActiveWheel "w2" twoWheels) = Some dinner /\
  activeWheel (setActiveWheel "gone" twoWheels) = Some lunch.
Proof.
  assert (Hnd : NoDup (map Wheel.id (wheels twoWheels))).
  { repeat constructor; simpl; intuition discriminate. }
  split; [exact Hnd|]. split.
  - destruct (setActiveWheel_selects twoWheels "w2" Hnd)
      as (_ & _ & _ & H & _).
    apply (H dinner); [simpl; auto | reflexivity].
  - destruct (setActiveWheel_selects twoWheels "gone" Hnd)
      as (_ & _ & _ & _ & H).
    apply H. simpl. intuition discriminate.
Defined.

Lemma addWheel_appends_and_activates_witness :
  let tw := mkStamp "1700000000002" "0.1" in
  let ts := mkStamp "1700000000003" "0.2" in
  let w :=
    Wheel.mk (freshId tw)
      (String.append "Wheel " (decimal (List.length (wheels twoWheels) + 1)))
      [Segment.mk (freshId ts) "Default"] in
  wheels (addWheel tw ts twoWheels) = wheels twoWheels ++ [w] /\
  activeWheel (addWheel tw ts twoWheels) = Some w /\
  activeWheelId (addWheel tw ts twoWheels) = Some (freshId tw) /\
  selectedSegmentId (addWheel tw ts twoWheels) = None.
Proof.
  apply (addWheel_appends_and_activates
           (mkStamp "1700000000002" "0.1") (mkStamp "1700000000003" "0.2")
           twoWheels).
  simpl. intuition discriminate.
Defined.

(** Two segments added to the starter wheel: "Default", "Segment 2",
    "Segment 3". *)
Lemma addSegment_appends_witness :
  let tw := mkStamp "1700000000000" "0.5" in
  let ts := mkStamp "1700000000001" "0.75" in
  let t1 := mkStamp "1700000000002" "0.1" in
  let t2 := mkStamp "1700000000003" "0.2" in
  let s := addSegment t1 (starter tw ts initialState) in
  activeWheel (addSegment t2 s) =
    Some (Wheel.mk (freshId tw) "Wheel 1"
            [Segment.mk (freshId ts) "Default";
             Segment.mk (freshId t1) "Segment 2";
             Segment.mk (freshId t2) "Segment 3"]) /\
  selectedSegmentId (addSegment t2 s) = selectedSegmentId s /\
  activeWheelId (addSegment t2 s) = activeWheelId s.
Proof.
  exact (addSegment_appends (mkStamp "1700000000003" "0.2")
           (addSegment (mkStamp "1700000000002" "0.1")
              (starter (mkStamp "1700000000000" "0.5")
                 (mkStamp "1700000000001" "0.75") initialState))
           (Wheel.mk (freshId (mkStamp "1700000000000" "0.5")) "Wheel 1"
              [Segment.mk (freshId (mkStamp "1700000000001" "0.75"))
                 "Default";
               Segment.mk (freshId (mkStamp "1700000000002" "0.1"))
                 "Segment 2"])
           eq_refl).
Defined.

Lemma updateSegmentLabel_absent_noop_witness :
  updateSegmentLabel "s3" "Ramen" twoWheels = twoWheels.
Proof.
  apply (updateSegmentLabel_absent_noop "s3" "Ramen" twoWheels lunch).
  - repeat constructor; simpl; intuition discriminate.
  - reflexivity.
  - simpl. intuition discriminate.
Defined.

Lemma renameWheel_renames_witness :
  activeWheel (renameWheel "Brunch" twoWheels) =
    Some (Wheel.mk (Wheel.id lunch) "Brunch" (Wheel.segments lunch)) /\
  renameWheel "" (renameWheel "Brunch" twoWheels) = renameWheel "" twoWheels /\
  (NoDup (map Wheel.id (wheels twoWheels)) ->
   renameWheel (Wheel.name lunch) twoWheels = twoWheels).
Proof.
  apply (renameWheel_renames "Brunch" "" twoWheels lunch). reflexivity.
Defined.

Lemma deleteSegment_absent_noop_witness :
  let t := mkStamp "1700000000002" "0.1" in
  wheels (deleteSegment t "s3" twoWheels) = wheels twoWheels /\
  activeWheel (deleteSegment t "s3" twoWheels) = activeWheel twoWheels /\
  (selectedSegmentId twoWheels <> Some "s3" ->
   deleteSegment t "s3" twoWheels = twoWheels).
Proof.
  apply (deleteSegment_absent_noop (mkStamp "1700000000002" "0.1") "s3"
           twoWheels).
  - split; [split|]; simpl.
    + lia.
    + repeat constructor; unfold seg_ok; simpl; lia.
    + repeat constructor; simpl; intuition discriminate.
  - intros aw [= <-]. simpl. intuition discriminate.
Defined.

Lemma addWheel_deleteWheel_witness :
  let tw := mkStamp "1700000000002" "0.1" in
  let ts := mkStamp "1700000000003" "0.2" in
  let s' := deleteWheel (freshId tw) (addWheel tw ts twoWheels) in
  wheels s' = wheels twoWheels /\
  activeWheel s' = hd_error (wheels twoWheels) /\
  selectedSegmentId s' = None.
Proof.
  apply (addWheel_deleteWheel (mkStamp "1700000000002" "0.1")
           (mkStamp "1700000000003" "0.2") twoWheels).
  - simpl. lia.
  - simpl. intuition discriminate.
Defined.

Lemma addSegment_deleteSegment_witness :
  let t := mkStamp "1700000000002" "0.1" in
  let t' := mkStamp "1700000000003" "0.2" in
  wheels (deleteSegment t' (freshId t) (addSegment t twoWheels)) =
  wheels twoWheels.
Proof.
  apply (addSegment_deleteSegment (mkStamp "1700000000002" "0.1")
           (mkStamp "1700000000003" "0.2") twoWheels).
  - split; [split|]; simpl.
    + lia.
    + repeat constructor; unfold seg_ok; simpl; lia.
    + repeat constructor; simpl; intuition discriminate.
  - intros aw [= <-]. simpl. intuition discriminate.
Defined.

Lemma persist_load_round_trip_witness :
  let stringify := fun _ : Snapshot => "{wheels:2}" in
  let parse := fun _ : string => ParsedObject (snapshot twoWheels) in
  let tw := mkStamp "1700000000002" "0.1" in
  let ts := mkStamp "1700000000003" "0.2" in
  let item := persist stringify true twoWheels None in
  let s' := load parse (Item item) tw ts initialState in
  item = Some (stringify (snapshot twoWheels)) /\
  wheels s' = wheels twoWheels /\
  (forall a, activeWheelId twoWheels = Some a -> a <> "" ->
             activeWheelId s' = Some a) /\
  (activeWheelId twoWheels <> Some "" ->
   activeWheel s' = activeWheel twoWheels) /\
  selectedSegmentId s' = selectedSegmentId initialState.
Proof.
  apply (persist_load_round_trip (fun _ : Snapshot => "{wheels:2}")
           (fun _ : string => ParsedObject (snapshot twoWheels))
           twoWheels initialState None).
  - simpl. lia.
  - reflexivity.
  - reflexivity.
Defined.

Lemma load_snapshot_without_wheels_witness :
  let parse := fun _ : string => ParsedObject (mkSnapshot None None) in
  let tw := mkStamp "1700000000000" "0.5" in
  let ts := mkStamp "1700000000001" "0.75" in
  let s := load parse (Item (Some "{}")) tw ts initialState in
  wheels s = [] /\ activeWheel s = None /\ ~ bounds s /\
  winnerLabel s = "" /\
  wheels (addWheel tw ts s) =
    [Wheel.mk (freshId tw) "Wheel 1" [Segment.mk (freshId ts) "Default"]] /\
  valid (addWheel tw ts s).
Proof.
  apply (load_snapshot_without_wheels
           (fun _ : string => ParsedObject (mkSnapshot None None))
           "{}" (mkSnapshot None None)).
  - reflexivity.
  - reflexivity.
  - left. reflexivity.
Defined.

Lemma valid_run_witness :
  let actions :=
    [DeleteWheel "w2"; DeleteWheel "w1";
     AddWheel (mkStamp "1700000000002" "0.1") (mkStamp "1700000000003" "0.2");
     DeleteSegment (mkStamp "1700000000004" "0.3") "s1";
     RenameWheel "Brunch"] in
  valid (run actions twoWheels) /\ bounds (run actions twoWheels).
Proof.
  apply (valid_run
           [DeleteWheel "w2"; DeleteWheel "w1";
            AddWheel (mkStamp "1700000000002" "0.1")
              (mkStamp "1700000000003" "0.2");
            DeleteSegment (mkStamp "1700000000004" "0.3") "s1";
            RenameWheel "Brunch"] twoWheels).
  - split; [split|]; simpl.
    + lia.
    + repeat constructor; unfold seg_ok; simpl; lia.
    + repeat constructor; simpl; intuition discriminate.
  - simpl. intuition discriminate.
Defined.

Lemma palette_colors_witness : paletteColor 6 = paletteColor 0.
Proof.
  apply (proj2 (proj2 (proj2 (proj2 (palette_colors 6))))). reflexivity.
Defined.

Lemma unitDouble_three_quarters : Float64.unitDouble (3 # 4).
Proof.
  split; [|split].
  - exists 3%Z, (-2)%Z. split; [lia|]. split; [lia|]. reflexivity.
  - unfold Qle; simpl; lia.
  - unfold Qlt; simpl; lia.
Defined.

Lemma unitDouble_half : Float64.unitDouble (1 # 2).
Proof.
  split; [|split].
  - exists 1%Z, (-1)%Z. split; [lia|]. split; [lia|]. reflexivity.
  - unfold Qle; simpl; lia.
  - unfold Qlt; simpl; lia.
Defined.

Lemma spin_cycle_records_winner_witness :
  let s' := animationEnd (spinWheel (3 # 4) (1 # 2) twoWheels) in
  exists w,
    In w (Wheel.segments lunch) /\
    selectedSegmentId s' = Some (Segment.id w) /\
    isSpinning s' = false /\ animation s' = None /\
    wheels s' = wheels twoWheels /\ activeWheel s' = Some lunch /\
    (NoDup (map Segment.id (Wheel.segments lunch)) -> Segment.id w <> "" ->
     winnerLabel s' = Segment.label w).
Proof.
  apply (spin_cycle_records_winner (3 # 4) (1 # 2) twoWheels lunch).
  - reflexivity.
  - reflexivity.
  - discriminate.
  - simpl. lia.
  - exact unitDouble_three_quarters.
Defined.

Lemma winner_deleted_mid_spin_witness :
  let t := mkStamp "1700000000002" "0.1" in
  let s' := animationEnd (deleteSegment t (Segment.id pizza) midSpin) in
  selectedSegmentId s' = Some (Segment.id pizza) /\
  isSpinning s' = false /\
  (exists aw', activeWheel s' = Some aw' /\
               ~ In (Segment.id pizza)
                    (map Segment.id (Wheel.segments aw'))) /\
  winnerLabel s' = "".
Proof.
  apply (winner_deleted_mid_spin (mkStamp "1700000000002" "0.1") midSpin
           lunch (mkAnimation (Some 1530%Q) (Some pizza)) pizza).
  - reflexivity.
  - reflexivity.
  - reflexivity.
  - simpl. discriminate.
Defined.

Lemma every_segment_can_win_witness :
  exists r1 : Q,
    Float64.unitDouble r1 /\
    forall r2 : Q,
      winningIndex (spin [pizza; sushi] r1 r2) = Some (inject_Z (Z.of_nat 1))
      /\ spinWinner (spin [pizza; sushi] r1 r2) = nth_error [pizza; sushi] 1.
Proof.
  apply (every_segment_can_win [pizza; sushi] 1).
  - simpl. lia.
  - simpl. lia.
Defined.

Lemma winning_index_monotone_witness :
  exists i i' : Z,
    winningIndex (spin [pizza; sushi] (1 # 2) 0) = Some (inject_Z i) /\
    winningIndex (spin [pizza; sushi] (3 # 4) 0) = Some (inject_Z i') /\
    (0 <= i <= i')%Z /\ (i' < Z.of_nat (List.length [pizza; sushi]))%Z /\
    spinWinner (spin [pizza; sushi] 0 0) = hd_error [pizza; sushi].
Proof.
  apply (winning_index_monotone [pizza; sushi] (1 # 2) (3 # 4) 0 0).
  - discriminate.
  - simpl. lia.
  - exact unitDouble_half.
  - exact unitDouble_three_quarters.
  - unfold Qle; simpl; lia.
Defined.
